(** * cgrapht: a directed graph container keyed by payload hashes

    Shallow embedding of the headers of the repository:
    - [headers/cgrapht/models.hpp]  (module [Models])
    - [headers/cgrapht/graph.hpp]   (module [Graph])
    - [headers/cgrapht/default_edge.hpp] and the [Vertex] payload of the tests
      (module [Payloads])
    - [headers/models.hpp] and [headers/graph.hpp], the older copies of the two
      headers that still live next to the [cgrapht/] directory (module [Legacy]).

    [std::size_t] ids are modelled as [N]; no arithmetic is ever done on them.
    [std::unordered_map] is a [gmap N _], [std::unordered_set<std::size_t>] a
    [gset N].  C++ exceptions are made explicit by the [outcome] type. *)

From stdpp Require Import base option list gmap strings.

(** ** Exceptions *)

(** The exceptions the modelled code can raise: [std::runtime_error] (thrown by
    the accessors of [Result]), [std::out_of_range] (thrown by
    [unordered_map::at]) and [std::bad_variant_access] (thrown by [std::get]). *)
Inductive exn : Type :=
  | runtime_error (what : string)
  | out_of_range
  | bad_variant_access.

(** A call either returns a value or leaves by an exception. *)
Inductive outcome (A : Type) : Type :=
  | Returned (a : A)
  | Thrown (x : exn).
Arguments Returned {A} a.
Arguments Thrown {A} x.

Definition obind {A B} (m : outcome A) (k : A → outcome B) : outcome B :=
  match m with
  | Returned a => k a
  | Thrown x => Thrown x
  end.

Notation "x ←! m ;; k" := (obind m (λ x, k))
  (at level 100, m at next level, right associativity, only parsing).

(** The value a call returned, if it did return. *)
Definition outcome_value {A} (m : outcome A) : option A :=
  match m with
  | Returned a => Some a
  | Thrown _ => None
  end.

Definition returns {A} (m : outcome A) : Prop := ∃ a, m = Returned a.
Definition throws {A} (m : outcome A) : Prop := ∃ x, m = Thrown x.

(** [std::variant<std::monostate, SUCCESS, ERROR>]. *)
Inductive variant (S E : Type) : Type :=
  | monostate
  | holds_success (s : S)
  | holds_error (e : E).
Arguments monostate {S E}.
Arguments holds_success {S E} s.
Arguments holds_error {S E} e.

(** [std::get<SUCCESS>(v)] and [std::get<ERROR>(v)]. *)
Definition std_get_success {S E} (v : variant S E) : outcome S :=
  match v with
  | holds_success s => Returned s
  | _ => Thrown bad_variant_access
  end.

Definition std_get_error {S E} (v : variant S E) : outcome E :=
  match v with
  | holds_error e => Returned e
  | _ => Thrown bad_variant_access
  end.

(** What a move constructor leaves behind in its source.  The constructed
    object carries the value of the source; [moved_from] is the residue. *)
Class Movable (T : Type) := moved_from : T → T.

(** Trivially copyable types are left untouched by a move. *)
Definition trivially_movable (T : Type) : Movable T := λ x, x.

(** [operator==] of a payload type. *)
Class EqualityComparable (T : Type) := equal : T → T → bool.

(** An [operator==] that holds exactly between equal values. *)
Class LawfulEquality (T : Type) `{!EqualityComparable T} : Prop :=
  equal_spec : ∀ x y : T, equal x y = true ↔ x = y.

(** [std::variant]'s [operator==]: the same alternative, holding equal values. *)
Definition variant_equal {S E} `{!EqualityComparable S, !EqualityComparable E}
    (v w : variant S E) : bool :=
  match v, w with
  | monostate, monostate => true
  | holds_success s, holds_success s' => equal s s'
  | holds_error e, holds_error e' => equal e e'
  | _, _ => false
  end.

(** [enum class ErrorType]. *)
Inductive ErrorType : Type :=
  | INVALID_ARGUMENT
  | ABSENT_VERTX
  | ABSENT_EDGE
  | EDGE_ALREADY_EXISTS
  | VERTEX_NOT_FREE
  | INVALID_OPERATION
  | OUT_OF_RANGE
  | UNKNOWN.

Global Instance ErrorType_eq_dec : EqDecision ErrorType.
Proof. solve_decision. Defined.

Global Instance N_equal : EqualityComparable N := N.eqb.
Global Instance ErrorType_equal : EqualityComparable ErrorType :=
  λ x y, bool_decide (x = y).

Global Instance N_movable : Movable N := trivially_movable N.
Global Instance Z_movable : Movable Z := trivially_movable Z.
Global Instance ErrorType_movable : Movable ErrorType := trivially_movable ErrorType.

(** ** [cgrapht/models.hpp] *)
Module Models.

(** [template <typename SUCCESS, typename ERROR> class Result]. *)
Record Result (S E : Type) : Type := mkResult {
  result : variant S E;
  is_success : bool
}.
Arguments mkResult {S E} result is_success.
Arguments result {S E} _.
Arguments is_success {S E} _.

Section result.
Context {S E : Type}.

(** [Result r;] : the private default constructor. *)
Definition default_Result : Result S E := mkResult monostate true.

Definition success (s : S) : Result S E :=
  let r := default_Result in
  mkResult (holds_success s) (is_success r).

Definition error (e : E) : Result S E :=
  let r := default_Result in
  mkResult (holds_error e) false.

Definition is_ok (r : Result S E) : bool := is_success r.

Definition get_ok (r : Result S E) : outcome S :=
  if is_success r then std_get_success (result r)
  else Thrown (runtime_error "Cannot get ok value from error result").

Definition get_error (r : Result S E) : outcome E :=
  if negb (is_success r) then std_get_error (result r)
  else Thrown (runtime_error "Cannot get error value from success result").

(** [consume_ok() &&]: the payload is moved out; the second component is
    the source object after the call. *)
Definition consume_ok `{!Movable S} (r : Result S E) : outcome (S * Result S E) :=
  if is_success r then
    s ←! std_get_success (result r) ;;
    Returned (s, mkResult (holds_success (moved_from s)) (is_success r))
  else Thrown (runtime_error "Cannot consume ok value from error result").

Definition consume_error `{!Movable E} (r : Result S E) : outcome (E * Result S E) :=
  if negb (is_success r) then
    e ←! std_get_error (result r) ;;
    Returned (e, mkResult (holds_error (moved_from e)) (is_success r))
  else Thrown (runtime_error "Cannot consume error value from success result").

(** [operator==]: [is_success == other.is_success && result == other.result]. *)
Definition Result_equal `{!EqualityComparable S, !EqualityComparable E}
    (r other : Result S E) : bool :=
  eqb (is_success r) (is_success other) && variant_equal (result r) (result other).

(** The results a client can hold: the default constructor being private,
    every one comes from [success] or [error]. *)
Inductive constructed : Result S E → Prop :=
  | constructed_success s : constructed (success s)
  | constructed_error e : constructed (error e).
End result.

End Models.

(** ** [commons.hpp] *)

(** [concept Hashable]: [std::hash<T>{}(a)] yields a [std::size_t]. *)
Class Hashable (T : Type) := hash : T → N.

(** ** Container primitives shared by both copies of [graph.hpp] *)

(** [m.contains(k)]. *)
Definition contains {A} (k : N) (m : gmap N A) : bool :=
  match m !! k with
  | Some _ => true
  | None => false
  end.

(** [m.emplace(k, a)]: inserts only when the key is free. *)
Definition emplace {A} (k : N) (a : A) (m : gmap N A) : gmap N A :=
  match m !! k with
  | Some _ => m
  | None => <[k := a]> m
  end.

(** [m.at(k)]: throws [std::out_of_range] on a missing key. *)
Definition map_at {A} (k : N) (m : gmap N A) : outcome A :=
  match m !! k with
  | Some a => Returned a
  | None => Thrown out_of_range
  end.

(** [std::unordered_set<std::size_t>(first, last)] over the transformed view
    [l | std::views::transform(f)]: every element is computed while the set is
    filled, so the first failing [f] aborts the construction. *)
Fixpoint collect (f : N → outcome N) (l : list N) : outcome (gset N) :=
  match l with
  | [] => Returned ∅
  | x :: l' =>
      y ←! f x ;;
      ys ←! collect f l' ;;
      Returned ({[ y ]} ∪ ys)
  end.

(** [struct Edge<E>]. *)
Record Edge (E : Type) : Type := mkEdge {
  from_id : N;
  to_id : N;
  edge : E
}.
Arguments mkEdge {E} from_id to_id edge.
Arguments from_id {E} _.
Arguments to_id {E} _.
Arguments edge {E} _.

(** [Edge::operator==]:
    [from_id == other.from_id && edge == other.edge && to_id == other.to_id]. *)
Definition Edge_equal {E} `{!EqualityComparable E} (r other : Edge E) : bool :=
  N.eqb (from_id r) (from_id other) && equal (edge r) (edge other)
  && N.eqb (to_id r) (to_id other).

(** [std::ranges::find(range, value) != range.end()]: some element compares
    equal to [value]. *)
Definition found {A} (eq : A → A → bool) (range : list A) (value : A) : bool :=
  existsb (λ x, eq x value) range.

(** [struct EdgeSet]. *)
Record EdgeSet : Type := mkEdgeSet {
  incoming_edges : gset N;
  outgoing_edges : gset N
}.

(** [EdgeSet{}]. *)
Definition empty_EdgeSet : EdgeSet := mkEdgeSet ∅ ∅.

(** [m[k]] followed by a mutation of the entry: [operator[]] default-constructs
    a missing entry before [f] is applied to it. *)
Definition index_update (k : N) (f : EdgeSet → EdgeSet) (m : gmap N EdgeSet)
  : gmap N EdgeSet :=
  <[k := f (default empty_EdgeSet (m !! k))]> m.

Definition outgoing_insert (e : N) (s : EdgeSet) : EdgeSet :=
  mkEdgeSet (incoming_edges s) ({[ e ]} ∪ outgoing_edges s).
Definition incoming_insert (e : N) (s : EdgeSet) : EdgeSet :=
  mkEdgeSet ({[ e ]} ∪ incoming_edges s) (outgoing_edges s).
Definition outgoing_erase (e : N) (s : EdgeSet) : EdgeSet :=
  mkEdgeSet (incoming_edges s) (outgoing_edges s ∖ {[ e ]}).
Definition incoming_erase (e : N) (s : EdgeSet) : EdgeSet :=
  mkEdgeSet (incoming_edges s ∖ {[ e ]}) (outgoing_edges s).

(** [s.empty()]. *)
Definition set_empty (s : gset N) : bool := bool_decide (s = ∅).

(** The three private stores of [class DirectedGraph]. *)
Record DirectedGraph (V E : Type) : Type := mkGraph {
  vertex_index : gmap N V;
  edge_index : gmap N (Edge E);
  adjacency_list : gmap N EdgeSet
}.
Arguments mkGraph {V E} vertex_index edge_index adjacency_list.
Arguments vertex_index {V E} _.
Arguments edge_index {V E} _.
Arguments adjacency_list {V E} _.

(** A freshly constructed graph: all three stores are empty. *)
Definition empty_graph {V E} : DirectedGraph V E := mkGraph ∅ ∅ ∅.

(** ** [cgrapht/graph.hpp] *)
Module Graph.
Import Models.

Section graph.
Context {V E : Type} `{!Hashable V, !Hashable E}.

Local Abbreviation graph := (DirectedGraph V E).
Local Abbreviation id_result := (Result N ErrorType).
Local Abbreviation set_result := (Result (gset N) ErrorType).

(** [add_vertex]: both stores are filled under the one test on [vertex_index]. *)
Definition add_vertex (v : V) (g : graph) : graph * id_result :=
  let vertex_id := hash v in
  if negb (contains vertex_id (vertex_index g)) then
    (mkGraph (emplace vertex_id v (vertex_index g))
             (edge_index g)
             (emplace vertex_id empty_EdgeSet (adjacency_list g)),
     success vertex_id)
  else (g, success vertex_id).

(** [delete_vertex]: the [&&] chain reads [adjacency_list[vertex_id]] only after
    [contains] held, so the subscript never creates an entry. *)
Definition delete_vertex (vertex_id : N) (g : graph) : graph * id_result :=
  if negb (contains vertex_id (vertex_index g)) then
    (g, error ABSENT_VERTX)
  else
    match adjacency_list g !! vertex_id with
    | Some es =>
        if set_empty (incoming_edges es) && set_empty (outgoing_edges es) then
          (mkGraph (delete vertex_id (vertex_index g))
                   (edge_index g)
                   (delete vertex_id (adjacency_list g)),
           success vertex_id)
        else (g, error VERTEX_NOT_FREE)
    | None => (g, error VERTEX_NOT_FREE)
    end.

(** [add_edge]: [edge_index.contains(edge_id)] followed by [at(edge_id)] is one
    lookup; the stored payload is never compared. *)
Definition add_edge (from to : N) (e : E) (g : graph) : graph * id_result :=
  if negb (contains from (vertex_index g)) || negb (contains to (vertex_index g)) then
    (g, error ABSENT_VERTX)
  else
    let edge_id := hash e in
    match edge_index g !! edge_id with
    | Some edge_info =>
        if negb (bool_decide (from_id edge_info = from))
           || negb (bool_decide (to_id edge_info = to)) then
          (g, error EDGE_ALREADY_EXISTS)
        else (g, success edge_id)
    | None =>
        (mkGraph (vertex_index g)
                 (emplace edge_id (mkEdge from to e) (edge_index g))
                 (index_update to (incoming_insert edge_id)
                    (index_update from (outgoing_insert edge_id)
                       (adjacency_list g))),
         success edge_id)
    end.

(** [delete_edge]: the endpoints are read before the record is erased. *)
Definition delete_edge (edge_id : N) (g : graph) : graph * id_result :=
  match edge_index g !! edge_id with
  | Some r =>
      let from := from_id r in
      let to := to_id r in
      (mkGraph (vertex_index g)
               (delete edge_id (edge_index g))
               (index_update to (incoming_erase edge_id)
                  (index_update from (outgoing_erase edge_id)
                     (adjacency_list g))),
       success edge_id)
  | None => (g, error ABSENT_EDGE)
  end.

Definition get_vertex (id : N) (g : graph) : Result V ErrorType :=
  match vertex_index g !! id with
  | Some v => success v
  | None => error ABSENT_VERTX
  end.

Definition get_edge (id : N) (g : graph) : Result (Edge E) ErrorType :=
  match edge_index g !! id with
  | Some r => success r
  | None => error ABSENT_EDGE
  end.

(** The two lambdas handed to [std::views::transform]. *)
Definition edge_to (g : graph) (edge_id : N) : outcome N :=
  r ←! map_at edge_id (edge_index g) ;; Returned (to_id r).
Definition edge_from (g : graph) (edge_id : N) : outcome N :=
  r ←! map_at edge_id (edge_index g) ;; Returned (from_id r).

Definition get_children (vertex_id : N) (g : graph) : outcome set_result :=
  match adjacency_list g !! vertex_id with
  | None => Returned (error ABSENT_VERTX)
  | Some es =>
      children_set ←! collect (edge_to g) (elements (outgoing_edges es)) ;;
      Returned (success children_set)
  end.

Definition get_parents (vertex_id : N) (g : graph) : outcome set_result :=
  match adjacency_list g !! vertex_id with
  | None => Returned (error ABSENT_VERTX)
  | Some es =>
      parent_set ←! collect (edge_from g) (elements (incoming_edges es)) ;;
      Returned (success parent_set)
  end.

Definition get_neighbours (vertex_id : N) (g : graph) : outcome set_result :=
  match adjacency_list g !! vertex_id with
  | None => Returned (error ABSENT_VERTX)
  | Some es =>
      neighbours ←! collect (edge_to g) (elements (outgoing_edges es)) ;;
      parents ←! collect (edge_from g) (elements (incoming_edges es)) ;;
      Returned (success (neighbours ∪ parents))
  end.

Definition get_outgoing_edges (vertex_id : N) (g : graph) : outcome set_result :=
  match adjacency_list g !! vertex_id with
  | None => Returned (error ABSENT_VERTX)
  | Some es => Returned (success (outgoing_edges es))
  end.

Definition get_incoming_edges (vertex_id : N) (g : graph) : outcome set_result :=
  match adjacency_list g !! vertex_id with
  | None => Returned (error ABSENT_VERTX)
  | Some es => Returned (success (incoming_edges es))
  end.

(** [get_vertices()] and [get_edges()]: the values of the two tables. *)
Definition get_vertices (g : graph) : list V := (map_to_list (vertex_index g)).*2.
Definition get_edges (g : graph) : list (Edge E) := (map_to_list (edge_index g)).*2.

(** *** Call sequences on one graph object *)

(** The four mutating members; a client can reach a graph state only by
    calling them on a freshly constructed graph, the stores being private. *)
Inductive call : Type :=
  | AddVertex (v : V)
  | DeleteVertex (vertex_id : N)
  | AddEdge (from to : N) (e : E)
  | DeleteEdge (edge_id : N).

Definition exec (c : call) (g : graph) : graph * id_result :=
  match c with
  | AddVertex v => add_vertex v g
  | DeleteVertex i => delete_vertex i g
  | AddEdge a b e => add_edge a b e g
  | DeleteEdge i => delete_edge i g
  end.

Fixpoint run (cs : list call) (g : graph) : graph :=
  match cs with
  | [] => g
  | c :: cs' => run cs' (exec c g).1
  end.

Inductive reachable : graph → Prop :=
  | reachable_empty : reachable empty_graph
  | reachable_step c g : reachable g → reachable (exec c g).1.

(** The edge [edge_id] is in the edge table now and after every call of [cs]. *)
Fixpoint edge_kept (edge_id : N) (cs : list call) (g : graph) : Prop :=
  match cs with
  | [] => is_Some (edge_index g !! edge_id)
  | c :: cs' => is_Some (edge_index g !! edge_id) ∧ edge_kept edge_id cs' (exec c g).1
  end.

(** Degree zero: the vertex has an adjacency entry with both sets empty. *)
Definition isolated (vertex_id : N) (g : graph) : Prop :=
  ∃ es, adjacency_list g !! vertex_id = Some es
        ∧ incoming_edges es = ∅ ∧ outgoing_edges es = ∅.

(** The edge ids recorded for a vertex; a vertex without an adjacency entry
    has none. *)
Definition outgoing_of (g : graph) (vertex_id : N) : gset N :=
  outgoing_edges (default empty_EdgeSet (adjacency_list g !! vertex_id)).
Definition incoming_of (g : graph) (vertex_id : N) : gset N :=
  incoming_edges (default empty_EdgeSet (adjacency_list g !! vertex_id)).


(** Every payload is stored under its own hash. *)
Record keys_hashed (g : graph) : Prop := {
  vertex_key : ∀ k v, vertex_index g !! k = Some v → hash v = k;
  edge_key : ∀ k r, edge_index g !! k = Some r → hash (edge r) = k
}.


(** Consistency of the three stores. *)
Record graph_wf (g : graph) : Prop := {
  wf_dom : ∀ v, is_Some (vertex_index g !! v) ↔ is_Some (adjacency_list g !! v);
  wf_edge : ∀ k r, edge_index g !! k = Some r →
    is_Some (vertex_index g !! from_id r) ∧ is_Some (vertex_index g !! to_id r)
    ∧ k ∈ outgoing_of g (from_id r) ∧ k ∈ incoming_of g (to_id r);
  wf_out : ∀ v k, k ∈ outgoing_of g v →
    ∃ r, edge_index g !! k = Some r ∧ from_id r = v;
  wf_in : ∀ v k, k ∈ incoming_of g v →
    ∃ r, edge_index g !! k = Some r ∧ to_id r = v
}.
End graph.
End Graph.

(** ** [headers/models.hpp] and [headers/graph.hpp]: the older copies *)
Module Legacy.

(** [class Result] of [headers/models.hpp]; it carries a third member,
    [is_initialized], which no member function reads. *)
Record Result (S E : Type) : Type := mkResult {
  result : variant S E;
  is_success : bool;
  is_initialized : bool
}.
Arguments mkResult {S E} result is_success is_initialized.
Arguments result {S E} _.
Arguments is_success {S E} _.
Arguments is_initialized {S E} _.

Section result.
Context {S E : Type}.

Definition default_Result : Result S E := mkResult monostate true true.

Definition success (s : S) : Result S E :=
  let r := default_Result in
  mkResult (holds_success s) (is_success r) (is_initialized r).

Definition error (e : E) : Result S E :=
  let r := default_Result in
  mkResult (holds_error e) false (is_initialized r).

Definition is_ok (r : Result S E) : bool := is_success r.

Definition get_ok (r : Result S E) : outcome S :=
  if is_success r then std_get_success (result r)
  else Thrown (runtime_error "Cannot get ok value from error result").

Definition get_error (r : Result S E) : outcome E :=
  if negb (is_success r) then std_get_error (result r)
  else Thrown (runtime_error "Cannot get error value from success result").

(** [if (!is_success) return std::move(std::get<SUCCESS>(result));] *)
Definition consume_ok `{!Movable S} (r : Result S E) : outcome (S * Result S E) :=
  if negb (is_success r) then
    s ←! std_get_success (result r) ;;
    Returned (s, mkResult (holds_success (moved_from s)) (is_success r) (is_initialized r))
  else Thrown (runtime_error "Cannot consume ok value from error result").

(** [if (is_success) return std::move(std::get<ERROR>(result));] *)
Definition consume_error `{!Movable E} (r : Result S E) : outcome (E * Result S E) :=
  if is_success r then
    e ←! std_get_error (result r) ;;
    Returned (e, mkResult (holds_error (moved_from e)) (is_success r) (is_initialized r))
  else Thrown (runtime_error "Cannot consume error value from success result").

(** Forgetting [is_initialized] gives a [Result] of [cgrapht/models.hpp]. *)
Definition forget (r : Result S E) : Models.Result S E :=
  Models.mkResult (result r) (is_success r).
End result.

Section graph.
Context {V E : Type} `{!Hashable V, !Hashable E}.

Local Abbreviation graph := (DirectedGraph V E).
Local Abbreviation id_result := (Result N ErrorType).
Local Abbreviation set_result := (Result (gset N) ErrorType).

(** [add_vertex]: both stores are filled under the one test on [vertex_index]. *)
Definition add_vertex (v : V) (g : graph) : graph * id_result :=
  let vertex_id := hash v in
  if negb (contains vertex_id (vertex_index g)) then
    (mkGraph (emplace vertex_id v (vertex_index g))
             (edge_index g)
             (emplace vertex_id empty_EdgeSet (adjacency_list g)),
     success vertex_id)
  else (g, success vertex_id).

(** [delete_vertex]: the [&&] chain reads [adjacency_list[vertex_id]] only after
    [contains] held, so the subscript never creates an entry. *)
Definition delete_vertex (vertex_id : N) (g : graph) : graph * id_result :=
  if negb (contains vertex_id (vertex_index g)) then
    (g, error ABSENT_VERTX)
  else
    match adjacency_list g !! vertex_id with
    | Some es =>
        if set_empty (incoming_edges es) && set_empty (outgoing_edges es) then
          (mkGraph (delete vertex_id (vertex_index g))
                   (edge_index g)
                   (delete vertex_id (adjacency_list g)),
           success vertex_id)
        else (g, error VERTEX_NOT_FREE)
    | None => (g, error VERTEX_NOT_FREE)
    end.

(** [add_edge]: [edge_index.contains(edge_id)] followed by [at(edge_id)] is one
    lookup; the stored payload is never compared. *)
Definition add_edge (from to : N) (e : E) (g : graph) : graph * id_result :=
  if negb (contains from (vertex_index g)) || negb (contains to (vertex_index g)) then
    (g, error ABSENT_VERTX)
  else
    let edge_id := hash e in
    match edge_index g !! edge_id with
    | Some edge_info =>
        if negb (bool_decide (from_id edge_info = from))
           || negb (bool_decide (to_id edge_info = to)) then
          (g, error EDGE_ALREADY_EXISTS)
        else (g, success edge_id)
    | None =>
        (mkGraph (vertex_index g)
                 (emplace edge_id (mkEdge from to e) (edge_index g))
                 (index_update to (incoming_insert edge_id)
                    (index_update from (outgoing_insert edge_id)
                       (adjacency_list g))),
         success edge_id)
    end.

(** [delete_edge]: the endpoints are read before the record is erased. *)
Definition delete_edge (edge_id : N) (g : graph) : graph * id_result :=
  match edge_index g !! edge_id with
  | Some r =>
      let from := from_id r in
      let to := to_id r in
      (mkGraph (vertex_index g)
               (delete edge_id (edge_index g))
               (index_update to (incoming_erase edge_id)
                  (index_update from (outgoing_erase edge_id)
                     (adjacency_list g))),
       success edge_id)
  | None => (g, error ABSENT_EDGE)
  end.

Definition get_children (vertex_id : N) (g : graph) : outcome set_result :=
  match adjacency_list g !! vertex_id with
  | None => Returned (error ABSENT_VERTX)
  | Some es =>
      children_set ←! collect (Graph.edge_to g) (elements (outgoing_edges es)) ;;
      Returned (success children_set)
  end.

Definition get_parents (vertex_id : N) (g : graph) : outcome set_result :=
  match adjacency_list g !! vertex_id with
  | None => Returned (error ABSENT_VERTX)
  | Some es =>
      parent_set ←! collect (Graph.edge_from g) (elements (incoming_edges es)) ;;
      Returned (success parent_set)
  end.

(** Both views, [children] and [parents], range over [incoming_edges] and
    read [from_id]. *)
Definition get_neighbours (vertex_id : N) (g : graph) : outcome set_result :=
  match adjacency_list g !! vertex_id with
  | None => Returned (error ABSENT_VERTX)
  | Some es =>
      neighbours ←! collect (Graph.edge_from g) (elements (incoming_edges es)) ;;
      parents ←! collect (Graph.edge_from g) (elements (incoming_edges es)) ;;
      Returned (success (neighbours ∪ parents))
  end.

(** Call sequences on a graph object of [headers/graph.hpp]. *)
Definition exec (c : @Graph.call V E) (g : graph) : graph * id_result :=
  match c with
  | Graph.AddVertex v => add_vertex v g
  | Graph.DeleteVertex i => delete_vertex i g
  | Graph.AddEdge a b e => add_edge a b e g
  | Graph.DeleteEdge i => delete_edge i g
  end.

Fixpoint run (cs : list (@Graph.call V E)) (g : graph) : graph :=
  match cs with
  | [] => g
  | c :: cs' => run cs' (exec c g).1
  end.
End graph.

End Legacy.

(** ** Payload types of the repository *)
Module Payloads.

(** [struct DefaultEdge] of [cgrapht/default_edge.hpp], hashed by its id. *)
Record DefaultEdge : Type := mkDefaultEdge { DefaultEdge_id : N }.

Global Instance DefaultEdge_hash : Hashable DefaultEdge := DefaultEdge_id.

(** [struct Vertex] of the test files, hashed by its id alone. *)
Record Vertex : Type := mkVertex { Vertex_id : N; Vertex_name : string }.

Global Instance Vertex_hash : Hashable Vertex := Vertex_id.

(** [DefaultEdge::operator==] compares the ids; the defaulted
    [Vertex::operator==] compares both members. *)
Global Instance DefaultEdge_equal : EqualityComparable DefaultEdge :=
  λ e other, N.eqb (DefaultEdge_id e) (DefaultEdge_id other).

Global Instance Vertex_equal : EqualityComparable Vertex :=
  λ v other, N.eqb (Vertex_id v) (Vertex_id other)
             && bool_decide (Vertex_name v = Vertex_name other).

(** [class Movable] of [test_result.cc]: a move clears [valid] in the source
    and copies both members into the new object. *)
Record MovableT : Type := mkMovable { valid : bool; val : Z }.

Global Instance MovableT_movable : Movable MovableT :=
  λ m, mkMovable false (val m).

End Payloads.

(** ** Call sequences of the test suite *)
Module Scenarios.
Import Payloads Graph.
Local Open Scope N_scope.

(** "Neighbour functions happy case": five vertices, edges 2→1, 3→1, 4→2, 5→2. *)
Definition neighbour_calls : list (@call Vertex DefaultEdge) :=
  [ AddVertex (mkVertex 1 "One"); AddVertex (mkVertex 2 "Two");
    AddVertex (mkVertex 3 "Three"); AddVertex (mkVertex 4 "Four");
    AddVertex (mkVertex 5 "Five");
    AddEdge 2 1 (mkDefaultEdge 21); AddEdge 3 1 (mkDefaultEdge 31);
    AddEdge 4 2 (mkDefaultEdge 42); AddEdge 5 2 (mkDefaultEdge 52) ].

(** "Neighbour functions edge cases": the same graph with the unconnected
    vertex 6. *)
Definition unconnected_calls : list (@call Vertex DefaultEdge) :=
  AddVertex (mkVertex 6 "Six") :: neighbour_calls.

Definition unconnected_graph : DirectedGraph Vertex DefaultEdge :=
  run unconnected_calls empty_graph.

(** "Add same edge between different vertices": three vertices, no edge yet. *)
Definition three_vertices : DirectedGraph Vertex DefaultEdge :=
  run [ AddVertex (mkVertex 1 "One"); AddVertex (mkVertex 2 "Two");
        AddVertex (mkVertex 3 "Three") ] empty_graph.


(** A graph whose edge payloads are hashed by their id alone, as [Vertex] is:
    the payloads [{123, "first"}] and [{123, "second"}] share the id 123. *)
Definition labelled_graph : DirectedGraph Vertex Vertex :=
  run [ AddVertex (mkVertex 1 "One"); AddVertex (mkVertex 2 "Two");
        AddVertex (mkVertex 3 "Three");
        AddEdge 1 2 (mkVertex 123 "first") ] empty_graph.

End Scenarios.

(** * Properties *)

(** Case analysis on every [decide] left in the goal or in a hypothesis. *)
Ltac decide_cases :=
  repeat match goal with
         | |- context [decide ?P] => destruct (decide P)
         | H : context [decide ?P] |- _ => destruct (decide P)
         end;
  simpl in *.

(** ** Containers *)
Section containers.
Context {A : Type}.
Implicit Types (m : gmap N A) (k : N).

Lemma contains_true k m : contains k m = true ↔ is_Some (m !! k).
Proof.
  unfold contains. destruct (m !! k) eqn:Hk.
  - split; eauto.
  - split; [done | by intros [? ?]].
Qed.

Lemma contains_false k m : contains k m = false ↔ m !! k = None.
Proof. unfold contains. destruct (m !! k); naive_solver. Qed.

Lemma emplace_free k a m : m !! k = None → emplace k a m = <[k := a]> m.
Proof. unfold emplace. by intros ->. Qed.

Lemma emplace_taken k a m : is_Some (m !! k) → emplace k a m = m.
Proof. unfold emplace. by intros [b ->]. Qed.
End containers.

Lemma set_empty_true (s : gset N) : set_empty s = true ↔ s = ∅.
Proof. unfold set_empty. by rewrite bool_decide_eq_true. Qed.


Lemma default_index_update j f (m : gmap N EdgeSet) v :
  default empty_EdgeSet (index_update j f m !! v)
  = if decide (j = v) then f (default empty_EdgeSet (m !! v))
    else default empty_EdgeSet (m !! v).
Proof.
  unfold index_update. rewrite lookup_insert.
  case_decide; by subst.
Qed.

Lemma index_update_is_Some j f (m : gmap N EdgeSet) v :
  is_Some (index_update j f m !! v) ↔ j = v ∨ is_Some (m !! v).
Proof.
  unfold index_update. rewrite lookup_insert_is_Some'. naive_solver.
Qed.

Lemma collect_elem f l s :
  collect f l = Returned s → ∀ y, y ∈ s ↔ ∃ x, x ∈ l ∧ f x = Returned y.
Proof.
  revert s. induction l as [|x l IH]; simpl; intros s Hs y.
  - injection Hs as <-. split; [set_solver |]. intros (x & Hx & _). by inversion Hx.
  - destruct (f x) as [y0|] eqn:Hfx; simpl in Hs; [|done].
    destruct (collect f l) as [ys|] eqn:Hl; simpl in Hs; [|done].
    injection Hs as <-. rewrite elem_of_union, elem_of_singleton, (IH ys eq_refl).
    split.
    + intros [-> | (x' & Hx' & Hy)]; [exists x | exists x'];
        split; auto; by constructor.
    + intros (x' & Hx' & Hy). inversion Hx'; subst; [left | right; eauto].
      congruence.
Qed.

Lemma collect_returns f l :
  (∀ x, x ∈ l → returns (f x)) → returns (collect f l).
Proof.
  induction l as [|x l IH]; simpl; intros Hf.
  - by eexists.
  - destruct (Hf x) as [y ->]; [by constructor |]. simpl.
    destruct IH as [ys ->]; [intros; apply Hf; by constructor |].
    by eexists.
Qed.

(** ** The consistency invariant of [cgrapht/graph.hpp] *)
Section invariant.
Import Models Graph.
Context {V E : Type} `{!Hashable V, !Hashable E}.
Implicit Types (g : DirectedGraph V E) (v : V) (e : E).

Lemma outgoing_of_lookup g a es :
  adjacency_list g !! a = Some es → outgoing_of g a = outgoing_edges es.
Proof. unfold outgoing_of. by intros ->. Qed.

Lemma incoming_of_lookup g a es :
  adjacency_list g !! a = Some es → incoming_of g a = incoming_edges es.
Proof. unfold incoming_of. by intros ->. Qed.

Lemma graph_wf_empty : graph_wf (empty_graph : DirectedGraph V E).
Proof.
  split; unfold outgoing_of, incoming_of; simpl.
  - intros a. rewrite !lookup_empty. split; by intros [? ?].
  - intros k r. by rewrite lookup_empty.
  - intros a k. rewrite lookup_empty. set_solver.
  - intros a k. rewrite lookup_empty. set_solver.
Qed.

Lemma add_vertex_wf v g : graph_wf g → graph_wf (add_vertex v g).1.
Proof.
  intros Hwf. unfold add_vertex.
  destruct (contains (hash v) (vertex_index g)) eqn:Hc; simpl; [done |].
  apply contains_false in Hc.
  assert (adjacency_list g !! hash v = None) as Hadj.
  { apply eq_None_not_Some. rewrite <- (wf_dom g Hwf). by rewrite Hc; intros [? ?]. }
  rewrite !emplace_free by done.
  split; unfold outgoing_of, incoming_of; simpl.
  - intros a. rewrite !lookup_insert_is_Some. by rewrite (wf_dom g Hwf).
  - intros k r Hr. destruct (wf_edge g Hwf k r Hr) as (Hf & Ht & Ho & Hi).
    assert (hash v ≠ from_id r) by (intros Heq; rewrite <- Heq, Hc in Hf; by destruct Hf).
    assert (hash v ≠ to_id r) by (intros Heq; rewrite <- Heq, Hc in Ht; by destruct Ht).
    rewrite !lookup_insert_is_Some, !lookup_insert_ne by done. auto.
  - intros a k. rewrite lookup_insert. case_decide; simpl; [set_solver |].
    apply (wf_out g Hwf).
  - intros a k. rewrite lookup_insert. case_decide; simpl; [set_solver |].
    apply (wf_in g Hwf).
Qed.

Lemma delete_vertex_wf i g : graph_wf g → graph_wf (delete_vertex i g).1.
Proof.
  intros Hwf. unfold delete_vertex.
  destruct (contains i (vertex_index g)) eqn:Hc; simpl; [|done].
  destruct (adjacency_list g !! i) as [es|] eqn:Hadj; [|done].
  destruct (set_empty (incoming_edges es) && set_empty (outgoing_edges es)) eqn:Hempty;
    simpl; [|done].
  apply andb_true_iff in Hempty as [Hmem%set_empty_true Hout%set_empty_true].
  assert (∀ k r, edge_index g !! k = Some r → from_id r ≠ i ∧ to_id r ≠ i) as Hne.
  { intros k r Hr. destruct (wf_edge g Hwf k r Hr) as (_ & _ & Ho & Hi).
    split; intros Heq; rewrite Heq in *.
    - rewrite (outgoing_of_lookup _ _ _ Hadj), Hout in Ho. set_solver.
    - rewrite (incoming_of_lookup _ _ _ Hadj), Hmem in Hi. set_solver. }
  split; unfold outgoing_of, incoming_of; simpl.
  - intros a. rewrite !lookup_delete_is_Some. by rewrite (wf_dom g Hwf).
  - intros k r Hr. destruct (Hne k r Hr) as [Hf Ht].
    destruct (wf_edge g Hwf k r Hr) as (? & ? & ? & ?).
    rewrite !lookup_delete_is_Some, !lookup_delete_ne by done. auto.
  - intros a k. rewrite lookup_delete. case_decide; simpl; [set_solver |].
    apply (wf_out g Hwf).
  - intros a k. rewrite lookup_delete. case_decide; simpl; [set_solver |].
    apply (wf_in g Hwf).
Qed.

Lemma add_edge_wf a b e g : graph_wf g → graph_wf (add_edge a b e g).1.
Proof.
  intros Hwf. unfold add_edge.
  destruct (contains a (vertex_index g)) eqn:Ha; simpl; [|done].
  destruct (contains b (vertex_index g)) eqn:Hb; simpl; [|done].
  apply contains_true in Ha, Hb.
  destruct (edge_index g !! hash e) as [r0|] eqn:Hk.
  { by destruct (_ || _). }
  simpl. rewrite emplace_free by done.
  split; unfold outgoing_of, incoming_of; simpl.
  - intros c. rewrite !index_update_is_Some, <- (wf_dom g Hwf).
    split; [auto | intros [<- | [<- | ?]]; auto].
  - intros k r. rewrite !default_index_update, lookup_insert.
    destruct (decide (hash e = k)) as [Hkk|Hkk].
    + subst k. intros [= <-]. simpl.
      repeat split; auto; decide_cases; set_unfold; intuition congruence.
    + intros Hr. destruct (wf_edge g Hwf k r Hr) as (? & ? & Ho & Hi).
      unfold outgoing_of, incoming_of in Ho, Hi.
      repeat split; auto; decide_cases; set_unfold; intuition congruence.
  - intros c k. rewrite !default_index_update, lookup_insert. intros Hmem.
    destruct (decide (hash e = k)) as [Hkk|Hkk].
    + subst k. eexists; split; [done |]. simpl.
      destruct (decide (a = c)) as [|Hne]; [done |].
      assert (hash e ∈ outgoing_of g c) as Hold.
      { unfold outgoing_of. decide_cases; set_unfold; intuition congruence. }
      destruct (wf_out g Hwf c _ Hold) as (r & Hr & _). congruence.
    + apply (wf_out g Hwf). unfold outgoing_of.
      decide_cases; set_unfold; intuition congruence.
  - intros c k. rewrite !default_index_update, lookup_insert. intros Hmem.
    destruct (decide (hash e = k)) as [Hkk|Hkk].
    + subst k. eexists; split; [done |]. simpl.
      destruct (decide (b = c)) as [|Hne]; [done |].
      assert (hash e ∈ incoming_of g c) as Hold.
      { unfold incoming_of. decide_cases; set_unfold; intuition congruence. }
      destruct (wf_in g Hwf c _ Hold) as (r & Hr & _). congruence.
    + apply (wf_in g Hwf). unfold incoming_of.
      decide_cases; set_unfold; intuition congruence.
Qed.

Lemma delete_edge_wf k g : graph_wf g → graph_wf (delete_edge k g).1.
Proof.
  intros Hwf. unfold delete_edge.
  destruct (edge_index g !! k) as [r0|] eqn:Hk; [|done]. simpl.
  destruct (wf_edge g Hwf k r0 Hk) as (Hf0 & Ht0 & _ & _).
  split; unfold outgoing_of, incoming_of; simpl.
  - intros c. rewrite !index_update_is_Some, <- (wf_dom g Hwf).
    split; [auto | intros [<- | [<- | ?]]; auto].
  - intros k' r. rewrite !default_index_update, lookup_delete.
    destruct (decide (k = k')) as [Hkk|Hkk]; [done |].
    intros Hr. destruct (wf_edge g Hwf k' r Hr) as (? & ? & Ho & Hi).
    unfold outgoing_of, incoming_of in Ho, Hi.
    repeat split; auto; decide_cases; set_unfold; intuition congruence.
  - intros c k'. rewrite !default_index_update, lookup_delete. intros Hmem.
    assert (k' ∈ outgoing_of g c) as Hold.
    { unfold outgoing_of. decide_cases; set_unfold; intuition congruence. }
    destruct (wf_out g Hwf c k' Hold) as (r & Hr & Hc).
    destruct (decide (k = k')) as [Hkk|Hkk]; [|eauto]. subst k'.
    assert (r = r0) as -> by congruence. subst c.
    decide_cases; set_unfold; intuition congruence.
  - intros c k'. rewrite !default_index_update, lookup_delete. intros Hmem.
    assert (k' ∈ incoming_of g c) as Hold.
    { unfold incoming_of. decide_cases; set_unfold; intuition congruence. }
    destruct (wf_in g Hwf c k' Hold) as (r & Hr & Hc).
    destruct (decide (k = k')) as [Hkk|Hkk]; [|eauto]. subst k'.
    assert (r = r0) as -> by congruence. subst c.
    decide_cases; set_unfold; intuition congruence.
Qed.

Lemma exec_wf c g : graph_wf g → graph_wf (exec c g).1.
Proof.
  destruct c; simpl;
    auto using add_vertex_wf, delete_vertex_wf, add_edge_wf, delete_edge_wf.
Qed.

Lemma reachable_wf g : reachable g → graph_wf g.
Proof. induction 1; auto using graph_wf_empty, exec_wf. Qed.

Lemma reachable_run cs g : reachable g → reachable (run cs g).
Proof.
  revert g. induction cs as [|c cs IH]; simpl; intros g Hg; [done |].
  apply IH. by constructor.
Qed.

Lemma reachable_from_empty (cs : list (@call V E)) : reachable (run cs empty_graph).
Proof. apply reachable_run. constructor. Qed.
End invariant.

(** ** [Result]: the consuming accessors *)
Section result_facts.
Context {S E : Type} `{!Movable S, !Movable E}.

(** In [cgrapht/models.hpp] each consumer hands out the payload of its own
    variant and leaves the moved-from payload behind. *)
Lemma consume_ok_success (s : S) :
  Models.consume_ok (Models.success s : Models.Result S E)
  = Returned (s, Models.mkResult (holds_success (moved_from s)) true).
Proof. reflexivity. Qed.

Lemma consume_error_error (e : E) :
  Models.consume_error (Models.error e : Models.Result S E)
  = Returned (e, Models.mkResult (holds_error (moved_from e)) false).
Proof. reflexivity. Qed.

(** ... and the wrong consumer throws [std::runtime_error]. *)
Lemma consume_ok_error (e : E) :
  Models.consume_ok (Models.error e : Models.Result S E)
  = Thrown (runtime_error "Cannot consume ok value from error result").
Proof. reflexivity. Qed.

Lemma consume_error_success (s : S) :
  Models.consume_error (Models.success s : Models.Result S E)
  = Thrown (runtime_error "Cannot consume error value from success result").
Proof. reflexivity. Qed.

(** The read-only accessors agree in both copies of the header. *)
Lemma get_ok_success (s : S) :
  Models.get_ok (Models.success s : Models.Result S E) = Returned s
  ∧ Legacy.get_ok (Legacy.success s : Legacy.Result S E) = Returned s.
Proof. done. Qed.

Lemma get_error_error (e : E) :
  Models.get_error (Models.error e : Models.Result S E) = Returned e
  ∧ Legacy.get_error (Legacy.error e : Legacy.Result S E) = Returned e.
Proof. done. Qed.

(** In [headers/models.hpp] the tests of the two consumers are swapped: the
    right consumer reports misuse, the wrong one reaches [std::get] on the
    alternative the variant does not hold. *)
Lemma legacy_consume_ok_success (s : S) :
  Legacy.consume_ok (Legacy.success s : Legacy.Result S E)
  = Thrown (runtime_error "Cannot consume ok value from error result").
Proof. reflexivity. Qed.

Lemma legacy_consume_error_error (e : E) :
  Legacy.consume_error (Legacy.error e : Legacy.Result S E)
  = Thrown (runtime_error "Cannot consume error value from success result").
Proof. reflexivity. Qed.

Lemma legacy_consume_ok_error (e : E) :
  Legacy.consume_ok (Legacy.error e : Legacy.Result S E) = Thrown bad_variant_access.
Proof. reflexivity. Qed.

Lemma legacy_consume_error_success (s : S) :
  Legacy.consume_error (Legacy.success s : Legacy.Result S E) = Thrown bad_variant_access.
Proof. reflexivity. Qed.

End result_facts.

(** C2 — [consume_ok()] on a success result and [consume_error()] on an error
    result must hand out the payload.  On the results built in
    [test_result.cc], [Result<Movable, ErrorType>::success(Movable(23))] and
    [Result<int, Movable>::error(Movable(32))], the consumers of
    [cgrapht/models.hpp] return the payloads 23 and 32, while those of
    [headers/models.hpp] return nothing: both leave by [std::runtime_error]. *)
Theorem legacy_consume_rejects_own_variant :
  let m := Payloads.mkMovable true 23 in
  let m2 := Payloads.mkMovable true 32 in
  Legacy.consume_ok (Legacy.success m : Legacy.Result Payloads.MovableT ErrorType)
  = Thrown (runtime_error "Cannot consume ok value from error result")
  ∧ Legacy.consume_error (Legacy.error m2 : Legacy.Result Z Payloads.MovableT)
    = Thrown (runtime_error "Cannot consume error value from success result")
  ∧ fst <$> outcome_value
      (Models.consume_ok (Models.success m : Models.Result Payloads.MovableT ErrorType))
    = Some m
  ∧ fst <$> outcome_value
      (Models.consume_error (Models.error m2 : Models.Result Z Payloads.MovableT))
    = Some m2.
Proof. repeat split. Qed.

(** ** Queries of [cgrapht/graph.hpp] on consistent graphs *)
Section queries.
Import Models Graph.
Context {V E : Type} `{!Hashable V, !Hashable E}.
Implicit Types (g : DirectedGraph V E) (v : V) (e : E).

Lemma edge_to_Returned g k y :
  edge_to g k = Returned y ↔ ∃ r, edge_index g !! k = Some r ∧ to_id r = y.
Proof.
  unfold edge_to, map_at. destruct (edge_index g !! k) as [r|]; simpl.
  - split; [intros [= <-]; eauto | intros (r' & [= <-] & <-); done].
  - split; [done | by intros (? & ? & ?)].
Qed.

Lemma edge_from_Returned g k y :
  edge_from g k = Returned y ↔ ∃ r, edge_index g !! k = Some r ∧ from_id r = y.
Proof.
  unfold edge_from, map_at. destruct (edge_index g !! k) as [r|]; simpl.
  - split; [intros [= <-]; eauto | intros (r' & [= <-] & <-); done].
  - split; [done | by intros (? & ? & ?)].
Qed.

(** On a consistent graph the two transformed views never throw. *)
Lemma collect_children g i es :
  graph_wf g → adjacency_list g !! i = Some es →
  ∃ c, collect (edge_to g) (elements (outgoing_edges es)) = Returned c
       ∧ ∀ y, y ∈ c ↔ ∃ k r, k ∈ outgoing_edges es
                              ∧ edge_index g !! k = Some r ∧ to_id r = y.
Proof.
  intros Hwf Hes.
  destruct (collect_returns (edge_to g) (elements (outgoing_edges es))) as [c Hc].
  { intros k Hk%elem_of_elements.
    rewrite <- (outgoing_of_lookup g i es Hes) in Hk.
    destruct (wf_out g Hwf i k Hk) as (r & Hr & _).
    exists (to_id r). apply edge_to_Returned. eauto. }
  exists c. split; [done |]. intros y.
  rewrite (collect_elem _ _ _ Hc). split.
  - intros (k & Hk%elem_of_elements & (r & Hr & Hy)%edge_to_Returned). eauto.
  - intros (k & r & Hk & Hr & Hy). exists k.
    split; [by apply elem_of_elements | apply edge_to_Returned; eauto].
Qed.

Lemma collect_parents g i es :
  graph_wf g → adjacency_list g !! i = Some es →
  ∃ p, collect (edge_from g) (elements (incoming_edges es)) = Returned p
       ∧ ∀ y, y ∈ p ↔ ∃ k r, k ∈ incoming_edges es
                              ∧ edge_index g !! k = Some r ∧ from_id r = y.
Proof.
  intros Hwf Hes.
  destruct (collect_returns (edge_from g) (elements (incoming_edges es))) as [p Hp].
  { intros k Hk%elem_of_elements.
    rewrite <- (incoming_of_lookup g i es Hes) in Hk.
    destruct (wf_in g Hwf i k Hk) as (r & Hr & _).
    exists (from_id r). apply edge_from_Returned. eauto. }
  exists p. split; [done |]. intros y.
  rewrite (collect_elem _ _ _ Hp). split.
  - intros (k & Hk%elem_of_elements & (r & Hr & Hy)%edge_from_Returned). eauto.
  - intros (k & r & Hk & Hr & Hy). exists k.
    split; [by apply elem_of_elements | apply edge_from_Returned; eauto].
Qed.

Lemma get_children_wf g i es :
  graph_wf g → adjacency_list g !! i = Some es →
  ∃ c, get_children i g = Returned (success c)
       ∧ ∀ y, y ∈ c ↔ ∃ k r, k ∈ outgoing_edges es
                              ∧ edge_index g !! k = Some r ∧ to_id r = y.
Proof.
  intros Hwf Hes. destruct (collect_children g i es Hwf Hes) as (c & Hc & Hel).
  exists c. split; [|done]. unfold get_children. by rewrite Hes, Hc.
Qed.

Lemma get_parents_wf g i es :
  graph_wf g → adjacency_list g !! i = Some es →
  ∃ p, get_parents i g = Returned (success p)
       ∧ ∀ y, y ∈ p ↔ ∃ k r, k ∈ incoming_edges es
                              ∧ edge_index g !! k = Some r ∧ from_id r = y.
Proof.
  intros Hwf Hes. destruct (collect_parents g i es Hwf Hes) as (p & Hp & Hel).
  exists p. split; [|done]. unfold get_parents. by rewrite Hes, Hp.
Qed.

(** X11 — [get_neighbours] of [cgrapht/graph.hpp]: on every reachable graph and
    every stored vertex it returns the union of what [get_children] and
    [get_parents] return, so the target of every outgoing edge is in it. *)
Lemma get_neighbours_union g i :
  reachable g → is_Some (vertex_index g !! i) →
  ∃ c p, get_children i g = Returned (success c)
         ∧ get_parents i g = Returned (success p)
         ∧ get_neighbours i g = Returned (success (c ∪ p))
         ∧ ∀ k r, k ∈ outgoing_of g i → edge_index g !! k = Some r → to_id r ∈ c ∪ p.
Proof.
  intros Hwf%reachable_wf Hv.
  apply (wf_dom g Hwf) in Hv as [es Hes].
  destruct (collect_children g i es Hwf Hes) as (c & Hc & Hcel).
  destruct (collect_parents g i es Hwf Hes) as (p & Hp & Hpel).
  exists c, p. unfold get_children, get_parents, get_neighbours.
  rewrite Hes, Hc, Hp. repeat split; try done.
  intros k r Hk Hr. rewrite (outgoing_of_lookup g i es Hes) in Hk.
  apply elem_of_union_l, Hcel. eauto.
Qed.

(** What a successful [add_edge] leaves in the edge table. *)
Lemma add_edge_success_binding a b e g i :
  (add_edge a b e g).2 = success i →
  i = hash e
  ∧ is_Some (vertex_index g !! a) ∧ is_Some (vertex_index g !! b)
  ∧ ∃ r, edge_index (add_edge a b e g).1 !! hash e = Some r
         ∧ from_id r = a ∧ to_id r = b
         ∧ edge r = default e (edge <$> edge_index g !! hash e).
Proof.
  unfold add_edge.
  destruct (contains a (vertex_index g)) eqn:Ha; simpl; [|done].
  destruct (contains b (vertex_index g)) eqn:Hb; simpl; [|done].
  apply contains_true in Ha, Hb.
  destruct (edge_index g !! hash e) as [r0|] eqn:Hk; simpl.
  - destruct (bool_decide (from_id r0 = a)) eqn:Hfa; simpl; [|done].
    destruct (bool_decide (to_id r0 = b)) eqn:Htb; simpl; [|done].
    apply bool_decide_eq_true in Hfa, Htb.
    intros [= <-]. repeat split; try done. exists r0. by rewrite Hk.
  - intros [= <-]. repeat split; try done.
    exists (mkEdge a b e). rewrite emplace_free, lookup_insert_eq by done. done.
Qed.

(** A call leaves a surviving edge record as it was. *)
Lemma exec_edge_lookup c g k r :
  edge_index g !! k = Some r → is_Some (edge_index (exec c g).1 !! k) →
  edge_index (exec c g).1 !! k = Some r.
Proof.
  intros Hr. destruct c as [v|i|a b e|i]; simpl.
  - unfold add_vertex. by destruct (negb _).
  - unfold delete_vertex. destruct (negb _); [done |].
    destruct (adjacency_list g !! i); [|done]. by destruct (_ && _).
  - unfold add_edge. destruct (_ || _); [done |].
    destruct (edge_index g !! hash e) as [r0|] eqn:Hk; simpl.
    + by destruct (_ || _).
    + intros _. rewrite emplace_free, lookup_insert_ne by congruence. done.
  - unfold delete_edge. destruct (edge_index g !! i) as [r0|] eqn:Hi; simpl; [|done].
    rewrite lookup_delete. case_decide; [by intros [? ?] | done].
Qed.

Lemma edge_kept_lookup k cs g :
  edge_kept k cs g → edge_index (run cs g) !! k = edge_index g !! k.
Proof.
  revert g. induction cs as [|c cs IH]; simpl; intros g; [done |].
  intros [[r Hr] Hkept]. rewrite (IH _ Hkept), Hr.
  apply exec_edge_lookup; [done |]. destruct cs; simpl in Hkept; tauto.
Qed.
End queries.

(** ** The two copies of [graph.hpp] side by side *)
Section legacy_graph.
Import Graph.
Context {V E : Type} `{!Hashable V, !Hashable E}.
Implicit Types (g : DirectedGraph V E).

(** The four mutating members have the same body in both headers: same state
    afterwards, same result up to the member [is_initialized]. *)
Lemma legacy_exec_agrees c g :
  (Legacy.exec c g).1 = (exec c g).1
  ∧ Legacy.forget (Legacy.exec c g).2 = (exec c g).2.
Proof.
  destruct c as [v|i|a b e|i]; simpl.
  - unfold Legacy.add_vertex, add_vertex. by destruct (negb _).
  - unfold Legacy.delete_vertex, delete_vertex. destruct (negb _); [done |].
    destruct (adjacency_list g !! i); [|done]. by destruct (_ && _).
  - unfold Legacy.add_edge, add_edge. destruct (_ || _); [done |].
    destruct (edge_index g !! hash e); [|done]. by destruct (_ || _).
  - unfold Legacy.delete_edge, delete_edge. by destruct (edge_index g !! i).
Qed.

(** X24 — Whatever calls are made, the graph object of [headers/graph.hpp] ends in
    the state the one of [cgrapht/graph.hpp] ends in. *)
Lemma legacy_run_agrees cs g : Legacy.run cs g = run cs g.
Proof.
  revert g. induction cs as [|c cs IH]; simpl; intros g; [done |].
  by rewrite (proj1 (legacy_exec_agrees c g)).
Qed.

(** [get_neighbours] of [headers/graph.hpp] is [get_parents]: the outgoing
    edges are never looked at. *)
Lemma legacy_get_neighbours_parents i g :
  Legacy.get_neighbours i g = Legacy.get_parents i g.
Proof.
  unfold Legacy.get_neighbours, Legacy.get_parents.
  destruct (adjacency_list g !! i) as [es|]; [|done].
  destruct (collect _ _) as [p|]; simpl; [|done].
  by rewrite union_idemp_L.
Qed.
End legacy_graph.

(** ** The graph of [test_neighbour_functions.cc] *)
Section neighbour_scenario.
Import Payloads Graph Scenarios.

(** C1 — [get_neighbours(id)] must return the union of [get_children(id)] and
    [get_parents(id)].  On the graph of the neighbour test (vertices 1..5,
    edges 2→1, 3→1, 4→2, 5→2) vertex 2 has the child 1 and the parents 4 and
    5; [get_neighbours(2)] of [cgrapht/graph.hpp] returns {1,4,5}, that of
    [headers/graph.hpp] returns {4,5} and misses the target of the outgoing
    edge 21. *)
Theorem legacy_get_neighbours_drops_children :
  let g := Legacy.run neighbour_calls empty_graph in
  is_Some (vertex_index g !! 2%N)
  ∧ Legacy.get_children 2%N g = Returned (Legacy.success ({[ 1%N ]} : gset N))
  ∧ Legacy.get_parents 2%N g = Returned (Legacy.success ({[ 4%N; 5%N ]} : gset N))
  ∧ Legacy.get_neighbours 2%N g = Returned (Legacy.success ({[ 4%N; 5%N ]} : gset N))
  ∧ 21%N ∈ outgoing_of g 2%N
  ∧ (to_id <$> (edge_index g !! 21%N)) = Some 1%N
  ∧ (1%N ∉ ({[ 4%N; 5%N ]} : gset N))
  ∧ get_neighbours 2%N (run neighbour_calls empty_graph)
    = Returned (Models.success ({[ 1%N; 4%N; 5%N ]} : gset N)).
Proof.
  repeat split; try (vm_compute; reflexivity).
  - by eexists.
  - rewrite elem_of_union, !elem_of_singleton. by intros [?|?].
Qed.
End neighbour_scenario.

(** ** The mutation protocol of [cgrapht/graph.hpp] *)
Section protocol.
Import Models Graph.
Context {V E : Type} `{!Hashable V, !Hashable E}.
Implicit Types (g : DirectedGraph V E) (v : V) (e : E).

(** C4 — [delete_vertex(id)] on any graph state: [ABSENT_VERTX] for an id that
    is not in the vertex table; [VERTEX_NOT_FREE], with the state untouched,
    for a stored id whose incoming or outgoing set is non-empty; for a stored
    id with both sets empty, success with the id, the vertex being erased
    from the vertex table and from the adjacency index and nothing else
    changing. *)
Theorem delete_vertex_gated g i :
  (vertex_index g !! i = None → delete_vertex i g = (g, error ABSENT_VERTX))
  ∧ (is_Some (vertex_index g !! i) →
     incoming_of g i ≠ ∅ ∨ outgoing_of g i ≠ ∅ →
     delete_vertex i g = (g, error VERTEX_NOT_FREE))
  ∧ (is_Some (vertex_index g !! i) → isolated i g →
     delete_vertex i g
     = (mkGraph (delete i (vertex_index g)) (edge_index g) (delete i (adjacency_list g)),
        success i)
     ∧ vertex_index (delete_vertex i g).1 !! i = None
     ∧ adjacency_list (delete_vertex i g).1 !! i = None).
Proof.
  unfold delete_vertex, incoming_of, outgoing_of, isolated.
  split; [|split].
  - intros Hi%contains_false. by rewrite Hi.
  - intros Hi%contains_true Hne. rewrite Hi. simpl.
    destruct (adjacency_list g !! i) as [es|]; [|done]. simpl in Hne.
    destruct (set_empty (incoming_edges es)) eqn:Hin;
      destruct (set_empty (outgoing_edges es)) eqn:Hout; simpl; try done.
    apply set_empty_true in Hin, Hout. tauto.
  - intros Hi%contains_true (es & Hes & Hin%set_empty_true & Hout%set_empty_true).
    rewrite Hi, Hes, Hin, Hout. simpl.
    by rewrite !lookup_delete_eq.
Qed.

(** C7 — [add_vertex(v)] on any graph state returns success with [hash(v)];
    a second call returns the same id and changes nothing in the state the
    first call left.  Exactly one payload is stored under the id: the one that
    was there before the first call, or [v] when the id was free; a first call
    on a stored id leaves the whole state (adjacency sets included) alone,
    otherwise it grows the vertex table by one entry. *)
Theorem add_vertex_idempotent v g :
  let g1 := (add_vertex v g).1 in
  (add_vertex v g).2 = success (hash v)
  ∧ is_ok (add_vertex v g).2 = true
  ∧ add_vertex v g1 = (g1, success (hash v))
  ∧ vertex_index g1 !! hash v = Some (default v (vertex_index g !! hash v))
  ∧ (if contains (hash v) (vertex_index g) then g1 = g
     else size (vertex_index g1) = S (size (vertex_index g)))
  ∧ length (get_vertices (add_vertex v g1).1) = length (get_vertices g1).
Proof.
  intros g1. subst g1. unfold add_vertex, contains.
  destruct (vertex_index g !! hash v) as [v0|] eqn:Hv; simpl.
  - rewrite Hv. by simpl.
  - rewrite emplace_free by done. simpl. rewrite lookup_insert_eq. simpl.
    repeat split. by apply map_size_insert_None.
Qed.

(** C8 — on every reachable graph, each of the five adjacency queries
    answers [ABSENT_VERTX] for an id that is not in the vertex table, and
    success with the empty set for a stored vertex of degree zero. *)
Theorem queries_absent_or_isolated g i :
  reachable g →
  (vertex_index g !! i = None →
     get_children i g = Returned (error ABSENT_VERTX)
     ∧ get_parents i g = Returned (error ABSENT_VERTX)
     ∧ get_neighbours i g = Returned (error ABSENT_VERTX)
     ∧ get_outgoing_edges i g = Returned (error ABSENT_VERTX)
     ∧ get_incoming_edges i g = Returned (error ABSENT_VERTX))
  ∧ (is_Some (vertex_index g !! i) → isolated i g →
     get_children i g = Returned (success ∅)
     ∧ get_parents i g = Returned (success ∅)
     ∧ get_neighbours i g = Returned (success ∅)
     ∧ get_outgoing_edges i g = Returned (success ∅)
     ∧ get_incoming_edges i g = Returned (success ∅)).
Proof.
  intros Hwf%reachable_wf.
  unfold get_children, get_parents, get_neighbours, get_outgoing_edges,
    get_incoming_edges.
  split.
  - intros Hi. assert (adjacency_list g !! i = None) as ->; [|done].
    apply eq_None_not_Some. rewrite <- (wf_dom g Hwf), Hi. by intros [? ?].
  - intros _ (es & -> & -> & ->). rewrite elements_empty. simpl.
    by rewrite union_empty_l_L.
Qed.

(** C5 — on every graph reachable from the empty graph, an edge id of the
    edge table is in the outgoing set of the adjacency entry of its
    [from_id] and of no other vertex, and in the incoming set of the entry of
    its [to_id] and of no other vertex; both endpoints are stored vertices
    and have an adjacency entry. *)
Theorem edge_adjacency_exact g k r :
  reachable g → edge_index g !! k = Some r →
  is_Some (vertex_index g !! from_id r) ∧ is_Some (vertex_index g !! to_id r)
  ∧ (∃ es, adjacency_list g !! from_id r = Some es ∧ k ∈ outgoing_edges es)
  ∧ (∃ es, adjacency_list g !! to_id r = Some es ∧ k ∈ incoming_edges es)
  ∧ (∀ a es, adjacency_list g !! a = Some es →
       (k ∈ outgoing_edges es ↔ a = from_id r)
       ∧ (k ∈ incoming_edges es ↔ a = to_id r)).
Proof.
  intros Hwf%reachable_wf Hr.
  destruct (wf_edge g Hwf k r Hr) as (Hf & Ht & Ho & Hi).
  destruct (proj1 (wf_dom g Hwf _) Hf) as [esf Hesf].
  destruct (proj1 (wf_dom g Hwf _) Ht) as [est Hest].
  rewrite (outgoing_of_lookup g _ _ Hesf) in Ho.
  rewrite (incoming_of_lookup g _ _ Hest) in Hi.
  repeat split; eauto.
  - intros Hk. rewrite <- (outgoing_of_lookup g a es) in Hk by done.
    destruct (wf_out g Hwf a k Hk) as (r' & Hr' & <-). congruence.
  - intros ->. congruence.
  - intros Hk. rewrite <- (incoming_of_lookup g a es) in Hk by done.
    destruct (wf_in g Hwf a k Hk) as (r' & Hr' & <-). congruence.
  - intros ->. congruence.
Qed.

(** C6 — on every reachable graph with [a] and [b] stored, right after a
    successful [add_edge(a,b,e)] the four queries succeed and
    [get_children(a)] contains [b], [get_parents(b)] contains [a],
    [get_outgoing_edges(a)] and [get_incoming_edges(b)] contain [hash(e)]. *)
Theorem add_edge_symmetry g a b e i :
  reachable g →
  is_Some (vertex_index g !! a) → is_Some (vertex_index g !! b) →
  (add_edge a b e g).2 = success i →
  let g' := (add_edge a b e g).1 in
  ∃ children parents outgoing incoming,
    get_children a g' = Returned (success children) ∧ b ∈ children
    ∧ get_parents b g' = Returned (success parents) ∧ a ∈ parents
    ∧ get_outgoing_edges a g' = Returned (success outgoing) ∧ hash e ∈ outgoing
    ∧ get_incoming_edges b g' = Returned (success incoming) ∧ hash e ∈ incoming.
Proof.
  intros Hreach _ _ Hok g'.
  assert (graph_wf g') as Hwf by by apply add_edge_wf, reachable_wf.
  destruct (add_edge_success_binding a b e g i Hok)
    as (_ & _ & _ & r & Hr & Hfrom & Hto & _).
  fold g' in Hr.
  destruct (wf_edge g' Hwf _ r Hr) as (Hf & Ht & Ho & Hi).
  rewrite Hfrom in Hf, Ho. rewrite Hto in Ht, Hi.
  destruct (proj1 (wf_dom g' Hwf _) Hf) as [esa Hesa].
  destruct (proj1 (wf_dom g' Hwf _) Ht) as [esb Hesb].
  rewrite (outgoing_of_lookup g' _ _ Hesa) in Ho.
  rewrite (incoming_of_lookup g' _ _ Hesb) in Hi.
  destruct (get_children_wf g' a esa Hwf Hesa) as (c & Hc & Hcel).
  destruct (get_parents_wf g' b esb Hwf Hesb) as (p & Hp & Hpel).
  exists c, p, (outgoing_edges esa), (incoming_edges esb).
  unfold get_outgoing_edges, get_incoming_edges. rewrite Hesa, Hesb.
  repeat split; try done.
  - apply Hcel. eauto.
  - apply Hpel. eauto.
Qed.

(** An id bound to the pair [(a,b)] rejects every other pair of stored
    endpoints, whatever payload is stored with it. *)
Lemma add_edge_rejects_other_pair g a b c d e e0 :
  edge_index g !! hash e = Some (mkEdge a b e0) →
  is_Some (vertex_index g !! c) → is_Some (vertex_index g !! d) →
  (c, d) ≠ (a, b) →
  add_edge c d e g = (g, error EDGE_ALREADY_EXISTS).
Proof.
  intros Hr Hc%contains_true Hd%contains_true Hne.
  unfold add_edge. rewrite Hc, Hd, Hr. simpl.
  destruct (bool_decide (a = c)) eqn:Hac; simpl; [|done].
  destruct (bool_decide (b = d)) eqn:Hbd; simpl; [|done].
  apply bool_decide_eq_true in Hac, Hbd. congruence.
Qed.

(** C3, in the form that holds — once [add_edge(a,b,e)] has succeeded and for
    as long as the edge [hash(e)] stays in the edge table, whatever calls are
    made, [add_edge(c,d,e)] with stored [c] and [d] and [(c,d) ≠ (a,b)] answers
    [EDGE_ALREADY_EXISTS] and leaves the whole graph state as it is;
    [get_edge(hash(e))] still returns the record it returned right after the
    successful call, which joins [a] to [b] and carries [e] when that call
    inserted it, and the payload that was already stored under [hash(e)] when
    the call found the id bound. *)
Theorem add_edge_conflict g0 a b e i cs c d :
  (add_edge a b e g0).2 = success i →
  edge_kept (hash e) cs (add_edge a b e g0).1 →
  let g1 := (add_edge a b e g0).1 in
  let g := run cs g1 in
  is_Some (vertex_index g !! c) → is_Some (vertex_index g !! d) →
  (c, d) ≠ (a, b) →
  add_edge c d e g = (g, error EDGE_ALREADY_EXISTS)
  ∧ get_edge (hash e) (add_edge c d e g).1 = get_edge (hash e) g1
  ∧ get_edge (hash e) g1
    = success (mkEdge a b (default e (edge <$> edge_index g0 !! hash e))).
Proof.
  intros Hok Hkept g1 g Hc Hd Hne.
  destruct (add_edge_success_binding a b e g0 i Hok)
    as (_ & _ & _ & r & Hr & Hfrom & Hto & Hedge).
  fold g1 in Hr, Hkept.
  assert (r = mkEdge a b (default e (edge <$> edge_index g0 !! hash e))) as ->.
  { destruct r as [f t p]; simpl in *. by subst f t p. }
  assert (edge_index g !! hash e = edge_index g1 !! hash e) as Hg
    by apply (edge_kept_lookup _ _ _ Hkept).
  rewrite Hr in Hg.
  rewrite (add_edge_rejects_other_pair g a b c d e _ Hg Hc Hd Hne).
  unfold get_edge. simpl. by rewrite Hg, Hr.
Qed.

(** C10 — [add_edge] looks at the endpoints only.  On every reachable graph
    whose edge table binds [hash(e)] to [{a,b,e}], [add_edge(a,b,e')] with
    [hash(e') = hash(e)] returns success with that id and changes no store:
    the payload kept in the table is still [e]. *)
Theorem add_edge_ignores_payload g a b e e' :
  reachable g →
  edge_index g !! hash e = Some (mkEdge a b e) →
  hash e' = hash e →
  add_edge a b e' g = (g, success (hash e))
  ∧ get_edge (hash e') (add_edge a b e' g).1 = success (mkEdge a b e).
Proof.
  intros Hwf%reachable_wf Hr Hh.
  destruct (wf_edge g Hwf _ _ Hr) as (Ha%contains_true & Hb%contains_true & _).
  simpl in Ha, Hb.
  assert (add_edge a b e' g = (g, success (hash e))) as Hadd.
  { unfold add_edge. rewrite Ha, Hb, Hh, Hr. simpl.
    by rewrite !bool_decide_eq_true_2. }
  rewrite Hadd. split; [done |]. unfold get_edge. simpl. by rewrite Hh, Hr.
Qed.





End protocol.

(** ** The theorems at the graphs of the test suite *)
Section instances.
Import Models Graph Payloads Scenarios.
Local Open Scope N_scope.

Lemma delete_vertex_gated_witness :
  let g := unconnected_graph in
  (vertex_index g !! 1000 = None
   ∧ delete_vertex 1000 g = (g, error ABSENT_VERTX))
  ∧ (is_Some (vertex_index g !! 2) ∧ incoming_of g 2 ≠ ∅
     ∧ delete_vertex 2 g = (g, error VERTEX_NOT_FREE))
  ∧ (is_Some (vertex_index g !! 6) ∧ isolated 6 g
     ∧ (delete_vertex 6 g).2 = success 6
     ∧ vertex_index (delete_vertex 6 g).1 !! 6 = None).
Proof.
  intros g.
  assert (vertex_index g !! 1000 = None) as Habsent by (vm_compute; reflexivity).
  assert (is_Some (vertex_index g !! 2)) as Htwo by (vm_compute; eexists; reflexivity).
  assert (incoming_of g 2 ≠ ∅) as Hbusy by (intros Heq; vm_compute in Heq; discriminate Heq).
  assert (is_Some (vertex_index g !! 6)) as Hsix by (vm_compute; eexists; reflexivity).
  assert (isolated 6 g) as Hfree
    by (exists empty_EdgeSet; repeat split; vm_compute; reflexivity).
  destruct (delete_vertex_gated g 1000) as (H1 & _ & _).
  destruct (delete_vertex_gated g 2) as (_ & H2 & _).
  destruct (delete_vertex_gated g 6) as (_ & _ & H3).
  destruct (H3 Hsix Hfree) as (H3a & H3b & _).
  split; [split; [exact Habsent | exact (H1 Habsent)] |].
  split; [split; [exact Htwo | split; [exact Hbusy | exact (H2 Htwo (or_introl Hbusy))]] |].
  split; [exact Hsix |]. split; [exact Hfree |].
  split; [exact (f_equal snd H3a) | exact H3b].
Defined.

Lemma queries_absent_or_isolated_witness :
  let g := unconnected_graph in
  reachable g
  ∧ (vertex_index g !! 1000 = None
     ∧ get_children 1000 g = Returned (error ABSENT_VERTX)
     ∧ get_incoming_edges 1000 g = Returned (error ABSENT_VERTX))
  ∧ (is_Some (vertex_index g !! 6) ∧ isolated 6 g
     ∧ get_neighbours 6 g = Returned (success ∅)
     ∧ get_outgoing_edges 6 g = Returned (success ∅)).
Proof.
  intros g.
  assert (reachable g) as Hreach by apply (reachable_from_empty unconnected_calls).
  assert (vertex_index g !! 1000 = None) as Habsent by (vm_compute; reflexivity).
  assert (is_Some (vertex_index g !! 6)) as Hsix by (vm_compute; eexists; reflexivity).
  assert (isolated 6 g) as Hfree
    by (exists empty_EdgeSet; repeat split; vm_compute; reflexivity).
  destruct (queries_absent_or_isolated g 1000 Hreach) as (H1 & _).
  destruct (queries_absent_or_isolated g 6 Hreach) as (_ & H2).
  destruct (H1 Habsent) as (Hc & _ & _ & _ & Hi).
  destruct (H2 Hsix Hfree) as (_ & _ & Hn & Ho & _).
  split; [exact Hreach |].
  split; [split; [exact Habsent | split; [exact Hc | exact Hi]] |].
  split; [exact Hsix |]. split; [exact Hfree |]. split; [exact Hn | exact Ho].
Defined.

Lemma edge_adjacency_exact_witness :
  let g := unconnected_graph in
  let r := mkEdge 4 2 (mkDefaultEdge 42) in
  reachable g ∧ edge_index g !! 42 = Some r
  ∧ is_Some (vertex_index g !! 4) ∧ is_Some (vertex_index g !! 2)
  ∧ (∀ a es, adjacency_list g !! a = Some es →
       (42 ∈ outgoing_edges es ↔ a = 4) ∧ (42 ∈ incoming_edges es ↔ a = 2)).
Proof.
  intros g r.
  assert (reachable g) as Hreach by apply (reachable_from_empty unconnected_calls).
  assert (edge_index g !! 42 = Some r) as Hr by (vm_compute; reflexivity).
  destruct (edge_adjacency_exact g 42 r Hreach Hr) as (Hf & Ht & _ & _ & Hex).
  split; [exact Hreach |]. split; [exact Hr |].
  split; [exact Hf |]. split; [exact Ht | exact Hex].
Defined.

Lemma add_edge_symmetry_witness :
  let g := three_vertices in
  let e := mkDefaultEdge 123 in
  reachable g ∧ (add_edge 1 2 e g).2 = success 123
  ∧ ∃ children parents outgoing incoming,
      get_children 1 (add_edge 1 2 e g).1 = Returned (success children)
      ∧ 2 ∈ children
      ∧ get_parents 2 (add_edge 1 2 e g).1 = Returned (success parents)
      ∧ 1 ∈ parents
      ∧ get_outgoing_edges 1 (add_edge 1 2 e g).1 = Returned (success outgoing)
      ∧ 123 ∈ outgoing
      ∧ get_incoming_edges 2 (add_edge 1 2 e g).1 = Returned (success incoming)
      ∧ 123 ∈ incoming.
Proof.
  intros g e.
  assert (reachable g) as Hreach by apply reachable_from_empty.
  assert ((add_edge 1 2 e g).2 = success 123) as Hok by (vm_compute; reflexivity).
  assert (is_Some (vertex_index g !! 1)) as Hone by (vm_compute; eexists; reflexivity).
  assert (is_Some (vertex_index g !! 2)) as Htwo by (vm_compute; eexists; reflexivity).
  split; [exact Hreach |]. split; [exact Hok |].
  exact (add_edge_symmetry g 1 2 e 123 Hreach Hone Htwo Hok).
Defined.

Lemma add_edge_conflict_witness :
  let first := mkVertex 123 "first" in
  let e := mkVertex 123 "second" in
  let cs := [AddEdge 1 2 e; AddVertex (mkVertex 4 "Four")] in
  let g1 := (add_edge 1 2 e labelled_graph).1 in
  let g := run cs g1 in
  (add_edge 1 2 e labelled_graph).2 = success 123
  ∧ edge_kept 123 cs g1
  ∧ add_edge 2 3 e g = (g, error EDGE_ALREADY_EXISTS)
  ∧ get_edge 123 (add_edge 2 3 e g).1 = get_edge 123 g1
  ∧ get_edge 123 g1 = success (mkEdge 1 2 first).
Proof.
  intros first e cs g1 g.
  assert ((add_edge 1 2 e labelled_graph).2 = success 123) as Hok
    by (vm_compute; reflexivity).
  assert (edge_kept 123 cs g1) as Hkept
    by (repeat split; vm_compute; eexists; reflexivity).
  assert (is_Some (vertex_index g !! 2)) as Htwo by (vm_compute; eexists; reflexivity).
  assert (is_Some (vertex_index g !! 3)) as Hthree by (vm_compute; eexists; reflexivity).
  assert ((2, 3) ≠ (1, 2)) as Hne by discriminate.
  destruct (add_edge_conflict labelled_graph 1 2 e 123 cs 2 3 Hok Hkept
              Htwo Hthree Hne) as (Hrej & Hsame & Hget).
  split; [exact Hok |]. split; [exact Hkept |]. split; [exact Hrej |].
  split; [exact Hsame | exact Hget].
Defined.

(** C3 with [{a,b,e}] as the record returned does not hold: when the
    successful [add_edge(a,b,e)] finds [hash(e)] already bound to [(a,b)], the
    payload in the table is the one stored first.  With the edge
    [{123, "first"}] from 1 to 2 stored and [e = {123, "second"}],
    [add_edge(1,2,e)] succeeds, [add_edge(2,3,e)] is rejected, and
    [get_edge(123)] returns [{1, 2, {123, "first"}}]. *)
Lemma add_edge_conflict_keeps_first_payload :
  ¬ (∀ (g0 : DirectedGraph Vertex Vertex) (a b : N) (e : Vertex) (i : N)
       (cs : list call) (c d : N),
       reachable g0 →
       (add_edge a b e g0).2 = success i →
       edge_kept (hash e) cs (add_edge a b e g0).1 →
       let g := run cs (add_edge a b e g0).1 in
       is_Some (vertex_index g !! c) → is_Some (vertex_index g !! d) →
       (c, d) ≠ (a, b) →
       add_edge c d e g = (g, error EDGE_ALREADY_EXISTS)
       ∧ get_edge (hash e) (add_edge c d e g).1 = success (mkEdge a b e)).
Proof.
  intros Hclaim.
  destruct (Hclaim labelled_graph 1 2 (mkVertex 123 "second") 123 [] 2 3)
    as (_ & Hget).
  - apply reachable_from_empty.
  - vm_compute. reflexivity.
  - vm_compute. eexists; reflexivity.
  - vm_compute. eexists; reflexivity.
  - vm_compute. eexists; reflexivity.
  - discriminate.
  - vm_compute in Hget. discriminate Hget.
Qed.

Lemma add_edge_ignores_payload_witness :
  let g := labelled_graph in
  let e := mkVertex 123 "first" in
  let e' := mkVertex 123 "second" in
  reachable g ∧ edge_index g !! hash e = Some (mkEdge 1 2 e) ∧ hash e' = hash e
  ∧ add_edge 1 2 e' g = (g, success 123)
  ∧ get_edge 123 (add_edge 1 2 e' g).1 = success (mkEdge 1 2 e).
Proof.
  intros g e e'.
  assert (reachable g) as Hreach by apply reachable_from_empty.
  assert (edge_index g !! hash e = Some (mkEdge 1 2 e)) as Hr
    by (vm_compute; reflexivity).
  assert (hash e' = hash e) as Hh by reflexivity.
  destruct (add_edge_ignores_payload g 1 2 e e' Hreach Hr Hh) as (Hadd & Hget).
  split; [exact Hreach |]. split; [exact Hr |]. split; [exact Hh |].
  split; [exact Hadd | exact Hget].
Defined.


End instances.

(** ** Further properties of [cgrapht/graph.hpp] *)
Section coverage.
Import Models Graph.
Context {V E : Type} `{!Hashable V, !Hashable E}.
Implicit Types (g : DirectedGraph V E) (v : V) (e : E).

Lemma is_ok_error {A} (x : ErrorType) : is_ok (error x : Result A ErrorType) = false.
Proof. reflexivity. Qed.

Lemma is_ok_success {A} (a : A) : is_ok (success a : Result A ErrorType) = true.
Proof. reflexivity. Qed.

Lemma exec_keys_hashed c g : keys_hashed g → keys_hashed (exec c g).1.
Proof.
  intros [Hv He]. destruct c as [v|i|a b e|i]; simpl.
  - unfold add_vertex, contains, emplace.
    destruct (vertex_index g !! hash v) eqn:Hk; simpl; [by split |].
    split; simpl; [|done]. intros k v'. rewrite lookup_insert.
    case_decide; [by intros [= <-] | apply Hv].
  - unfold delete_vertex. destruct (negb _); [by split |].
    destruct (adjacency_list g !! i); [|by split].
    destruct (_ && _); [|by split]. split; simpl; [|done].
    intros k v'. rewrite lookup_delete. case_decide; [done | apply Hv].
  - unfold add_edge. destruct (_ || _); [by split |].
    destruct (edge_index g !! hash e) eqn:Hk; simpl.
    + destruct (_ || _); by split.
    + split; simpl; [done |]. rewrite emplace_free by done.
      intros k r. rewrite lookup_insert.
      case_decide; [by intros [= <-] | apply He].
  - unfold delete_edge. destruct (edge_index g !! i); [|by split].
    split; simpl; [done |].
    intros k r. rewrite lookup_delete. case_decide; [done | apply He].
Qed.

Lemma reachable_keys_hashed g : reachable g → keys_hashed g.
Proof.
  induction 1 as [|c g _ IH]; [|by apply exec_keys_hashed].
  split; intros k x; simpl; by rewrite lookup_empty.
Qed.

(** X6 — On every reachable graph a payload sits under its own hash: the key of a
    stored vertex is the hash of the vertex, the key of a stored edge record
    is the hash of its payload. *)
Theorem stored_under_own_hash g :
  reachable g →
  (∀ k v, vertex_index g !! k = Some v → hash v = k)
  ∧ (∀ k r, edge_index g !! k = Some r → hash (edge r) = k).
Proof. intros [Hv He]%reachable_keys_hashed. by split. Qed.

(** X1 — A mutating call that reports an error has changed nothing: no member
    leaves a half-done update behind. *)
Theorem failed_call_keeps_state c g :
  is_ok (exec c g).2 = false → (exec c g).1 = g.
Proof.
  destruct c as [v|i|a b e|i]; simpl.
  - unfold add_vertex. by destruct (negb _).
  - unfold delete_vertex. destruct (negb _); [done |].
    destruct (adjacency_list g !! i); [|done]. by destruct (_ && _).
  - unfold add_edge. destruct (_ || _); [done |].
    destruct (edge_index g !! hash e); [|done]. by destruct (_ || _).
  - unfold delete_edge. by destruct (edge_index g !! i).
Qed.

(** X2 — The three answers of [add_edge] and when each is given.  A missing
    endpoint is reported before the edge id is looked at; a bound id is
    rejected exactly when its record joins another pair. *)
Theorem add_edge_answers a b e g :
  ((add_edge a b e g).2 = error ABSENT_VERTX
   ↔ vertex_index g !! a = None ∨ vertex_index g !! b = None)
  ∧ ((add_edge a b e g).2 = error EDGE_ALREADY_EXISTS
     ↔ is_Some (vertex_index g !! a) ∧ is_Some (vertex_index g !! b)
       ∧ ∃ r, edge_index g !! hash e = Some r ∧ (from_id r, to_id r) ≠ (a, b))
  ∧ ((add_edge a b e g).2 = success (hash e)
     ↔ is_Some (vertex_index g !! a) ∧ is_Some (vertex_index g !! b)
       ∧ ∀ r, edge_index g !! hash e = Some r → (from_id r, to_id r) = (a, b)).
Proof.
  unfold add_edge, contains.
  destruct (vertex_index g !! a) as [va|] eqn:Ha; simpl.
  2: { repeat split; try done; try (by intros ([? ?] & _)); auto. }
  destruct (vertex_index g !! b) as [vb|] eqn:Hb; simpl.
  2: { repeat split; try done; try (by intros (_ & [? ?] & _)); auto. }
  destruct (edge_index g !! hash e) as [r|] eqn:Hr; simpl.
  - destruct (bool_decide (from_id r = a)) eqn:Hfa; simpl;
      [destruct (bool_decide (to_id r = b)) eqn:Htb; simpl |].
    + apply bool_decide_eq_true in Hfa, Htb. subst.
      repeat split; try done; try (by intros [?|?]); eauto.
      * by intros (_ & _ & r' & [= <-] & ?).
      * by intros r' [= <-].
    + apply bool_decide_eq_false in Htb.
      repeat split; try done; try (by intros [?|?]); eauto.
      * exists r. split; [done |]. congruence.
      * intros (_ & _ & Hall). specialize (Hall r eq_refl). congruence.
    + apply bool_decide_eq_false in Hfa.
      repeat split; try done; try (by intros [?|?]); eauto.
      * exists r. split; [done |]. congruence.
      * intros (_ & _ & Hall). specialize (Hall r eq_refl). congruence.
  - repeat split; try done; try (by intros [?|?]); eauto.
    by intros (_ & _ & r' & ? & _).
Qed.

(** X3 — Deleting twice: after a successful [delete_vertex(id)] the same call
    answers [ABSENT_VERTX] and changes nothing. *)
Theorem delete_vertex_twice i g :
  is_ok (delete_vertex i g).2 = true →
  delete_vertex i (delete_vertex i g).1 = ((delete_vertex i g).1, error ABSENT_VERTX).
Proof.
  unfold delete_vertex at 1 3 4.
  destruct (contains i (vertex_index g)) eqn:Hc; simpl; [|done].
  destruct (adjacency_list g !! i) as [es|]; [|done].
  destruct (_ && _); simpl; [|done]. intros _.
  unfold delete_vertex, contains. simpl. by rewrite lookup_delete_eq.
Qed.

(** X4 — Deleting twice: after a successful [delete_edge(id)] the same call
    answers [ABSENT_EDGE] and changes nothing. *)
Theorem delete_edge_twice k g :
  is_ok (delete_edge k g).2 = true →
  delete_edge k (delete_edge k g).1 = ((delete_edge k g).1, error ABSENT_EDGE).
Proof.
  unfold delete_edge at 1 3 4.
  destruct (edge_index g !! k) as [r|] eqn:Hr; simpl; [|done]. intros _.
  unfold delete_edge. simpl. by rewrite lookup_delete_eq.
Qed.

(** *** The adjacency queries read off the edge table *)

Lemma success_inj {A} (x y : A) :
  (success x : Result A ErrorType) = success y → x = y.
Proof. by intros [= ->]. Qed.

Lemma query_success_entry {A} (i : N) g (f : EdgeSet → outcome (Result A ErrorType)) x :
  match adjacency_list g !! i with
  | None => Returned (error ABSENT_VERTX)
  | Some es => f es
  end = Returned (success x) →
  ∃ es, adjacency_list g !! i = Some es ∧ f es = Returned (success x).
Proof. destruct (adjacency_list g !! i) as [es|]; [eauto | done]. Qed.

Lemma children_elem g a c :
  graph_wf g → get_children a g = Returned (success c) →
  ∀ y, y ∈ c ↔ ∃ k r, edge_index g !! k = Some r ∧ from_id r = a ∧ to_id r = y.
Proof.
  intros Hwf Hq. pose proof Hq as Hq'. unfold get_children in Hq'.
  apply query_success_entry in Hq' as (es & Hes & _).
  destruct (get_children_wf g a es Hwf Hes) as (c' & Hc' & Hel).
  rewrite Hc' in Hq. injection Hq as ->. intros y. rewrite Hel. split.
  - intros (k & r & Hk & Hr & Hy). exists k, r. repeat split; try done.
    rewrite <- (outgoing_of_lookup g a es Hes) in Hk.
    destruct (wf_out g Hwf a k Hk) as (r' & Hr' & Hfrom). congruence.
  - intros (k & r & Hr & Hfrom & Hy). exists k, r. repeat split; try done.
    destruct (wf_edge g Hwf k r Hr) as (_ & _ & Ho & _).
    by rewrite Hfrom, (outgoing_of_lookup g a es Hes) in Ho.
Qed.

Lemma parents_elem g a p :
  graph_wf g → get_parents a g = Returned (success p) →
  ∀ y, y ∈ p ↔ ∃ k r, edge_index g !! k = Some r ∧ to_id r = a ∧ from_id r = y.
Proof.
  intros Hwf Hq. pose proof Hq as Hq'. unfold get_parents in Hq'.
  apply query_success_entry in Hq' as (es & Hes & _).
  destruct (get_parents_wf g a es Hwf Hes) as (p' & Hp' & Hel).
  rewrite Hp' in Hq. injection Hq as ->. intros y. rewrite Hel. split.
  - intros (k & r & Hk & Hr & Hy). exists k, r. repeat split; try done.
    rewrite <- (incoming_of_lookup g a es Hes) in Hk.
    destruct (wf_in g Hwf a k Hk) as (r' & Hr' & Hto). congruence.
  - intros (k & r & Hr & Hto & Hy). exists k, r. repeat split; try done.
    destruct (wf_edge g Hwf k r Hr) as (_ & _ & _ & Hi).
    by rewrite Hto, (incoming_of_lookup g a es Hes) in Hi.
Qed.

Lemma outgoing_elem g a o :
  graph_wf g → get_outgoing_edges a g = Returned (success o) →
  ∀ k, k ∈ o ↔ ∃ r, edge_index g !! k = Some r ∧ from_id r = a.
Proof.
  intros Hwf Hq. unfold get_outgoing_edges in Hq.
  apply query_success_entry in Hq as (es & Hes & [= <-]).
  intros k. rewrite <- (outgoing_of_lookup g a es Hes). split.
  - apply (wf_out g Hwf).
  - intros (r & Hr & <-). by destruct (wf_edge g Hwf k r Hr) as (_ & _ & ? & _).
Qed.

Lemma incoming_elem g a n :
  graph_wf g → get_incoming_edges a g = Returned (success n) →
  ∀ k, k ∈ n ↔ ∃ r, edge_index g !! k = Some r ∧ to_id r = a.
Proof.
  intros Hwf Hq. unfold get_incoming_edges in Hq.
  apply query_success_entry in Hq as (es & Hes & [= <-]).
  intros k. rewrite <- (incoming_of_lookup g a es Hes). split.
  - apply (wf_in g Hwf).
  - intros (r & Hr & <-). by destruct (wf_edge g Hwf k r Hr) as (_ & _ & _ & ?).
Qed.

Lemma neighbours_elem g a n :
  graph_wf g → get_neighbours a g = Returned (success n) →
  ∀ y, y ∈ n ↔ ∃ k r, edge_index g !! k = Some r
                      ∧ (from_id r = a ∧ to_id r = y ∨ to_id r = a ∧ from_id r = y).
Proof.
  intros Hwf Hq. pose proof Hq as Hq'. unfold get_neighbours in Hq'.
  apply query_success_entry in Hq' as (es & Hes & _).
  destruct (get_children_wf g a es Hwf Hes) as (c & Hc & _).
  destruct (get_parents_wf g a es Hwf Hes) as (p & Hp & _).
  pose proof (children_elem g a c Hwf Hc) as Hcel.
  pose proof (parents_elem g a p Hwf Hp) as Hpel.
  unfold get_children, get_parents, get_neighbours in Hc, Hp, Hq.
  rewrite Hes in Hc, Hp, Hq.
  destruct (collect (edge_to g) _) as [c'|]; simpl in Hc, Hq; [|done].
  destruct (collect (edge_from g) _) as [p'|]; simpl in Hp, Hq; [|done].
  injection Hc as ->. injection Hp as ->. injection Hq as <-.
  intros y. rewrite elem_of_union, Hcel, Hpel. split.
  - intros [(k & r & ? & ? & ?) | (k & r & ? & ? & ?)]; exists k, r; auto.
  - intros (k & r & ? & [[? ?] | [? ?]]); [left | right]; exists k, r; auto.
Qed.

(** X7 — On every reachable graph none of the three queries that resolve edge ids
    with [edge_index.at] throws: whatever the id, [get_children],
    [get_parents] and [get_neighbours] return a [Result]. *)
Theorem queries_never_throw g i :
  reachable g →
  returns (get_children i g) ∧ returns (get_parents i g)
  ∧ returns (get_neighbours i g).
Proof.
  intros Hwf%reachable_wf.
  unfold get_children, get_parents, get_neighbours.
  destruct (adjacency_list g !! i) as [es|] eqn:Hes; [|by repeat split; eexists].
  destruct (collect_children g i es Hwf Hes) as (c & -> & _).
  destruct (collect_parents g i es Hwf Hes) as (p & -> & _).
  repeat split; by eexists.
Qed.

(** X8 — On every reachable graph the four one-sided queries say what the edge
    table says: the children of [a] are the [to_id]s of the records leaving
    [a], its parents the [from_id]s of the records entering it, its outgoing
    and incoming edge ids the keys of those records. *)
Theorem adjacency_queries_match_edge_table g a :
  reachable g →
  (∀ c, get_children a g = Returned (success c) →
     ∀ y, y ∈ c ↔ ∃ k r, edge_index g !! k = Some r ∧ from_id r = a ∧ to_id r = y)
  ∧ (∀ p, get_parents a g = Returned (success p) →
     ∀ y, y ∈ p ↔ ∃ k r, edge_index g !! k = Some r ∧ to_id r = a ∧ from_id r = y)
  ∧ (∀ o, get_outgoing_edges a g = Returned (success o) →
     ∀ k, k ∈ o ↔ ∃ r, edge_index g !! k = Some r ∧ from_id r = a)
  ∧ (∀ n, get_incoming_edges a g = Returned (success n) →
     ∀ k, k ∈ n ↔ ∃ r, edge_index g !! k = Some r ∧ to_id r = a).
Proof.
  intros Hwf%reachable_wf.
  split; [|split; [|split]]; intros x Hx.
  - by apply children_elem.
  - by apply parents_elem.
  - by apply outgoing_elem.
  - by apply incoming_elem.
Qed.

(** X9 — Children and parents mirror each other on every reachable graph: [b] is
    a child of [a] exactly when [a] is a parent of [b]. *)
Theorem children_parents_mirror g a b c p :
  reachable g →
  get_children a g = Returned (success c) →
  get_parents b g = Returned (success p) →
  b ∈ c ↔ a ∈ p.
Proof.
  intros Hwf%reachable_wf Hc Hp.
  rewrite (children_elem g a c Hwf Hc), (parents_elem g b p Hwf Hp).
  split; intros (k & r & ? & ? & ?); exists k, r; auto.
Qed.

(** X10 — [get_neighbours] is symmetric on every reachable graph: [b] is a
    neighbour of [a] exactly when [a] is a neighbour of [b]. *)
Theorem neighbours_symmetric g a b na nb :
  reachable g →
  get_neighbours a g = Returned (success na) →
  get_neighbours b g = Returned (success nb) →
  b ∈ na ↔ a ∈ nb.
Proof.
  intros Hwf%reachable_wf Ha Hb.
  rewrite (neighbours_elem g a na Hwf Ha), (neighbours_elem g b nb Hwf Hb).
  split; intros (k & r & ? & [[? ?] | [? ?]]); exists k, r; auto.
Qed.

(** X12 — Degree gating read off the edge table: on every reachable graph
    [delete_vertex(id)] succeeds exactly when [id] is a stored vertex and no
    edge record has it as an endpoint. *)
Theorem delete_vertex_succeeds_iff g i :
  reachable g →
  is_ok (delete_vertex i g).2 = true
  ↔ is_Some (vertex_index g !! i)
    ∧ ∀ k r, edge_index g !! k = Some r → from_id r ≠ i ∧ to_id r ≠ i.
Proof.
  intros Hwf%reachable_wf. unfold delete_vertex, contains.
  destruct (vertex_index g !! i) as [v|] eqn:Hv; simpl.
  2: { split; [done | by intros ([? ?] & _)]. }
  destruct (proj1 (wf_dom g Hwf i)) as [es Hes]; [by rewrite Hv |].
  rewrite Hes.
  destruct (set_empty (incoming_edges es)) eqn:Hin;
    destruct (set_empty (outgoing_edges es)) eqn:Hout; simpl.
  - apply set_empty_true in Hin, Hout. split; [|done]. intros _.
    split; [done |]. intros k r Hr.
    destruct (wf_edge g Hwf k r Hr) as (_ & _ & Ho & Hi).
    split; intros Heq; rewrite Heq in *.
    + rewrite (outgoing_of_lookup g i es Hes), Hout in Ho.
      by apply not_elem_of_empty in Ho.
    + rewrite (incoming_of_lookup g i es Hes), Hin in Hi.
      by apply not_elem_of_empty in Hi.
  - split; [done |]. intros (_ & Hfree). exfalso.
    apply bool_decide_eq_false in Hout. apply Hout, set_eq. intros k.
    split; [|by intros ?%not_elem_of_empty]. intros Hk.
    rewrite <- (outgoing_of_lookup g i es Hes) in Hk.
    destruct (wf_out g Hwf i k Hk) as (r & Hr & Hfrom).
    by destruct (Hfree k r Hr).
  - split; [done |]. intros (_ & Hfree). exfalso.
    apply bool_decide_eq_false in Hin. apply Hin, set_eq. intros k.
    split; [|by intros ?%not_elem_of_empty]. intros Hk.
    rewrite <- (incoming_of_lookup g i es Hes) in Hk.
    destruct (wf_in g Hwf i k Hk) as (r & Hr & Hto).
    by destruct (Hfree k r Hr) as [_ ?].
  - split; [done |]. intros (_ & Hfree). exfalso.
    apply bool_decide_eq_false in Hin. apply Hin, set_eq. intros k.
    split; [|by intros ?%not_elem_of_empty]. intros Hk.
    rewrite <- (incoming_of_lookup g i es Hes) in Hk.
    destruct (wf_in g Hwf i k Hk) as (r & Hr & Hto).
    by destruct (Hfree k r Hr) as [_ ?].
Qed.

(** *** Round trips *)

Lemma index_update_lookup j f (m : gmap N EdgeSet) i :
  index_update j f m !! i
  = if decide (j = i) then Some (f (default empty_EdgeSet (m !! j))) else m !! i.
Proof. unfold index_update. by rewrite lookup_insert. Qed.

Lemma EdgeSet_eq (s t : EdgeSet) :
  incoming_edges s = incoming_edges t → outgoing_edges s = outgoing_edges t → s = t.
Proof. destruct s, t; simpl. by intros -> ->. Qed.

Lemma insert_erase_fresh (k : N) (s : gset N) : k ∉ s → ({[ k ]} ∪ s) ∖ {[ k ]} = s.
Proof.
  intros Hk. apply set_eq. intros x.
  rewrite elem_of_difference, elem_of_union, elem_of_singleton.
  split; [intros [[?|?] ?]; done |]. intros Hx. split; [by right | congruence].
Qed.

Lemma erase_insert_member (k : N) (s : gset N) : k ∈ s → {[ k ]} ∪ s ∖ {[ k ]} = s.
Proof.
  intros Hk. apply set_eq. intros x.
  rewrite elem_of_union, elem_of_difference, elem_of_singleton.
  split; [intros [->|[? ?]]; done |]. intros Hx.
  destruct (decide (x = k)); [by left | by right].
Qed.

(** X13 — Adding an edge under a free id and deleting it again gives back the very
    graph one started from, on every reachable graph: all three stores are as
    before, for a self-loop as for an edge between two vertices. *)
Theorem add_edge_delete_edge_cancel g a b e :
  reachable g →
  is_Some (vertex_index g !! a) → is_Some (vertex_index g !! b) →
  edge_index g !! hash e = None →
  delete_edge (hash e) (add_edge a b e g).1 = (g, success (hash e)).
Proof.
  intros Hwf%reachable_wf Ha Hb Hk.
  destruct (proj1 (wf_dom g Hwf a) Ha) as [esa Hesa].
  destruct (proj1 (wf_dom g Hwf b) Hb) as [esb Hesb].
  assert (∀ c, hash e ∉ outgoing_of g c) as Hnout.
  { intros c Hin. destruct (wf_out g Hwf c _ Hin) as (r & Hr & _). congruence. }
  assert (∀ c, hash e ∉ incoming_of g c) as Hnin.
  { intros c Hin. destruct (wf_in g Hwf c _ Hin) as (r & Hr & _). congruence. }
  apply contains_true in Ha, Hb.
  unfold add_edge. rewrite Ha, Hb, Hk. simpl. rewrite emplace_free by done.
  unfold delete_edge. simpl. rewrite lookup_insert_eq. simpl.
  rewrite delete_insert_eq, delete_id by done.
  destruct g as [vi ei al]; simpl in *. do 2 f_equal.
  apply map_eq. intros c.
  rewrite !index_update_lookup.
  specialize (Hnout c). specialize (Hnin c).
  unfold outgoing_of, incoming_of in Hnout, Hnin. simpl in Hnout, Hnin.
  repeat case_decide; subst; try congruence; simpl;
    rewrite ?Hesa, ?Hesb in *; simpl in *; try done;
    f_equal; apply EdgeSet_eq; simpl; rewrite ?insert_erase_fresh; done.
Qed.

(** X14 — Deleting a stored edge and adding it back with its own payload gives back
    the very graph one started from, on every reachable graph. *)
Theorem delete_edge_add_edge_cancel g a b e :
  reachable g →
  edge_index g !! hash e = Some (mkEdge a b e) →
  add_edge a b e (delete_edge (hash e) g).1 = (g, success (hash e)).
Proof.
  intros Hwf%reachable_wf Hr.
  destruct (wf_edge g Hwf _ _ Hr) as (Ha & Hb & Ho & Hi). simpl in *.
  destruct (proj1 (wf_dom g Hwf a) Ha) as [esa Hesa].
  destruct (proj1 (wf_dom g Hwf b) Hb) as [esb Hesb].
  apply contains_true in Ha, Hb.
  unfold delete_edge. rewrite Hr. simpl.
  unfold add_edge. simpl. rewrite Ha, Hb, lookup_delete_eq. simpl.
  rewrite emplace_free by apply lookup_delete_eq.
  rewrite insert_delete_eq, insert_id by done.
  destruct g as [vi ei al]; simpl in *. do 2 f_equal.
  apply map_eq. intros c.
  rewrite !index_update_lookup.
  unfold outgoing_of, incoming_of in Ho, Hi. simpl in Ho, Hi.
  rewrite Hesa in Ho. rewrite Hesb in Hi. simpl in Ho, Hi.
  repeat case_decide; subst; try congruence; simpl;
    rewrite ?Hesa, ?Hesb in *; simpl in *; try done;
    f_equal; apply EdgeSet_eq; simpl; rewrite ?erase_insert_member; try done.
  all: replace esa with esb in Ho by congruence; done.
Qed.

(** X15 — Adding a vertex under a free id and deleting it again gives back the very
    graph one started from, on every reachable graph. *)
Theorem add_vertex_delete_vertex_cancel g v :
  reachable g →
  vertex_index g !! hash v = None →
  delete_vertex (hash v) (add_vertex v g).1 = (g, success (hash v)).
Proof.
  intros Hwf%reachable_wf Hv.
  assert (adjacency_list g !! hash v = None) as Hadj.
  { apply eq_None_not_Some. rewrite <- (wf_dom g Hwf), Hv. by intros [? ?]. }
  unfold add_vertex, contains. rewrite Hv. simpl. rewrite !emplace_free by done.
  unfold delete_vertex, contains. simpl. rewrite !lookup_insert_eq. simpl.
  rewrite !delete_insert_eq, !delete_id by done. by destruct g.
Qed.

(** X18 — What [get_vertices()] lists is what [get_vertex] fetches: on every
    reachable graph a payload is in the view exactly when looking up its hash
    returns it. *)
Theorem get_vertices_fetchable g v :
  reachable g →
  v ∈ get_vertices g ↔ get_vertex (hash v) g = success v.
Proof.
  intros [Hkey _]%reachable_keys_hashed. unfold get_vertices, get_vertex.
  rewrite list_elem_of_fmap. split.
  - intros ([k v'] & -> & Hin%elem_of_map_to_list). simpl.
    by rewrite (Hkey k v' Hin), Hin.
  - destruct (vertex_index g !! hash v) as [v'|] eqn:Hv; [|done].
    intros [= ->]. exists (hash v, v). split; [done |].
    by apply elem_of_map_to_list.
Qed.

(** X19 — What [get_edges()] lists is what [get_edge] fetches: on every reachable
    graph a record is in the view exactly when looking up the hash of its
    payload returns it. *)
Theorem get_edges_fetchable g (r : Edge E) :
  reachable g →
  r ∈ get_edges g ↔ get_edge (hash (edge r)) g = success r.
Proof.
  intros [_ Hkey]%reachable_keys_hashed. unfold get_edges, get_edge.
  rewrite list_elem_of_fmap. split.
  - intros ([k r'] & -> & Hin%elem_of_map_to_list). simpl.
    by rewrite (Hkey k r' Hin), Hin.
  - destruct (edge_index g !! hash (edge r)) as [r'|] eqn:Hr; [|done].
    intros [= ->]. exists (hash (edge r), r). split; [done |].
    by apply elem_of_map_to_list.
Qed.

(** *** Effects of the edge operations *)

(** X5 — On every reachable graph the adjacency index has an entry for exactly
    the stored vertices and holds no dangling id: an id in the outgoing
    (incoming) set of [a] is the key of an edge record that leaves (enters)
    [a]. *)
Theorem adjacency_index_consistent g :
  reachable g →
  (∀ a, is_Some (vertex_index g !! a) ↔ is_Some (adjacency_list g !! a))
  ∧ (∀ a es k, adjacency_list g !! a = Some es → k ∈ outgoing_edges es →
       ∃ r, edge_index g !! k = Some r ∧ from_id r = a)
  ∧ (∀ a es k, adjacency_list g !! a = Some es → k ∈ incoming_edges es →
       ∃ r, edge_index g !! k = Some r ∧ to_id r = a).
Proof.
  intros Hwf%reachable_wf. split; [apply (wf_dom g Hwf) | split].
  - intros a es k Hes Hk. apply (wf_out g Hwf).
    by rewrite (outgoing_of_lookup g a es Hes).
  - intros a es k Hes Hk. apply (wf_in g Hwf).
    by rewrite (incoming_of_lookup g a es Hes).
Qed.

(** X16 — Adding an edge [a → b] under a free id, on a reachable graph, adds [b] to
    the children of [a] and [a] to the parents of [b], and changes the
    children and the parents of no other vertex. *)
Theorem add_edge_adds_one_child g a b e c :
  reachable g →
  is_Some (vertex_index g !! a) → is_Some (vertex_index g !! b) →
  edge_index g !! hash e = None →
  let g' := (add_edge a b e g).1 in
  (∀ cs, get_children c g = Returned (success cs) →
     get_children c g'
     = Returned (success (if decide (c = a) then {[ b ]} ∪ cs else cs)))
  ∧ (∀ ps, get_parents c g = Returned (success ps) →
     get_parents c g'
     = Returned (success (if decide (c = b) then {[ a ]} ∪ ps else ps))).
Proof.
  intros Hreach Ha Hb Hk g'.
  pose proof (reachable_wf g Hreach) as Hwf.
  assert (graph_wf g') as Hwf' by by apply add_edge_wf.
  assert (edge_index g' = <[hash e := mkEdge a b e]> (edge_index g)) as Hei.
  { unfold g', add_edge. apply contains_true in Ha, Hb.
    rewrite Ha, Hb, Hk. simpl. by rewrite emplace_free. }
  assert (∀ k r, edge_index g' !! k = Some r
                 ↔ (k = hash e ∧ r = mkEdge a b e) ∨ edge_index g !! k = Some r)
    as Hlook.
  { intros k r. rewrite Hei, lookup_insert. case_decide as Hkk.
    - subst k. rewrite Hk. split; [intros [= <-]; auto |].
      by intros [[_ ->]|?].
    - split; [auto |]. by intros [[? _]|?]. }
  assert (∀ x, is_Some (adjacency_list g !! x) → is_Some (adjacency_list g' !! x))
    as Hdom.
  { intros x Hx. apply (wf_dom g' Hwf'). apply (wf_dom g Hwf) in Hx.
    unfold g', add_edge. by destruct (_ || _), (edge_index g !! hash e). }
  split.
  - intros cs Hcs. pose proof Hcs as Hq. unfold get_children in Hq.
    apply query_success_entry in Hq as (es & Hes & _).
    destruct (Hdom c) as [es' Hes']; [by eexists |].
    destruct (get_children_wf g' c es' Hwf' Hes') as (cs' & Hcs' & _).
    rewrite Hcs'. do 2 f_equal. apply set_eq. intros y.
    rewrite (children_elem g' c cs' Hwf' Hcs').
    assert (y ∈ cs ∨ (c = a ∧ y = b)
            ↔ ∃ k r, edge_index g' !! k = Some r ∧ from_id r = c ∧ to_id r = y)
      as <-.
    { rewrite (children_elem g c cs Hwf Hcs). split.
      - intros [(k & r & Hr & ? & ?) | [-> ->]].
        + exists k, r. rewrite Hlook. auto.
        + exists (hash e), (mkEdge a b e). rewrite Hlook. auto.
      - intros (k & r & [[-> ->] | Hr]%Hlook & Hfrom & Hto); simpl in *.
        + right. by subst.
        + left. eauto. }
    case_decide; subst; rewrite ?elem_of_union, ?elem_of_singleton; tauto.
  - intros ps Hps. pose proof Hps as Hq. unfold get_parents in Hq.
    apply query_success_entry in Hq as (es & Hes & _).
    destruct (Hdom c) as [es' Hes']; [by eexists |].
    destruct (get_parents_wf g' c es' Hwf' Hes') as (ps' & Hps' & _).
    rewrite Hps'. do 2 f_equal. apply set_eq. intros y.
    rewrite (parents_elem g' c ps' Hwf' Hps').
    assert (y ∈ ps ∨ (c = b ∧ y = a)
            ↔ ∃ k r, edge_index g' !! k = Some r ∧ to_id r = c ∧ from_id r = y)
      as <-.
    { rewrite (parents_elem g c ps Hwf Hps). split.
      - intros [(k & r & Hr & ? & ?) | [-> ->]].
        + exists k, r. rewrite Hlook. auto.
        + exists (hash e), (mkEdge a b e). rewrite Hlook. auto.
      - intros (k & r & [[-> ->] | Hr]%Hlook & Hto & Hfrom); simpl in *.
        + right. by subst.
        + left. eauto. }
    case_decide; subst; rewrite ?elem_of_union, ?elem_of_singleton; tauto.
Qed.

(** X17 — [delete_edge(id)] of a stored edge, on a reachable graph: the id is gone
    from the edge table and from every adjacency set, no other id leaves any
    set, no other record changes, and the vertices and the keys of the
    adjacency index stay as they are. *)
Theorem delete_edge_prunes g k r :
  reachable g →
  edge_index g !! k = Some r →
  let g' := (delete_edge k g).1 in
  get_edge k g' = error ABSENT_EDGE
  ∧ (∀ k', k' ≠ k → edge_index g' !! k' = edge_index g !! k')
  ∧ vertex_index g' = vertex_index g
  ∧ (∀ c, is_Some (adjacency_list g' !! c) ↔ is_Some (adjacency_list g !! c))
  ∧ (∀ c, outgoing_of g' c = outgoing_of g c ∖ {[ k ]}
          ∧ incoming_of g' c = incoming_of g c ∖ {[ k ]}).
Proof.
  intros Hwf%reachable_wf Hr g'.
  destruct (wf_edge g Hwf k r Hr) as (Hf & Ht & _ & _).
  apply (wf_dom g Hwf) in Hf, Ht.
  assert (∀ c, c ≠ from_id r → k ∉ outgoing_of g c) as Hnout.
  { intros c Hne Hin. destruct (wf_out g Hwf c k Hin) as (r' & Hr' & ?). congruence. }
  assert (∀ c, c ≠ to_id r → k ∉ incoming_of g c) as Hnin.
  { intros c Hne Hin. destruct (wf_in g Hwf c k Hin) as (r' & Hr' & ?). congruence. }
  assert (∀ s : gset N, k ∉ s → s = s ∖ {[ k ]}) as Hkeep.
  { intros s Hs. apply set_eq. intros x.
    rewrite elem_of_difference, elem_of_singleton. split; [|tauto].
    intros Hx. split; [done | congruence]. }
  unfold g', delete_edge, get_edge. rewrite Hr. simpl.
  rewrite lookup_delete_eq.
  split; [done |]. split; [by intros k' Hne; rewrite lookup_delete_ne |].
  split; [done |]. split.
  - intros c. rewrite !index_update_is_Some. split; [|auto].
    intros [<- | [<- | ?]]; done.
  - intros c. specialize (Hnout c). specialize (Hnin c).
    unfold outgoing_of, incoming_of in *. simpl.
    rewrite !default_index_update.
    repeat case_decide; subst; simpl; split; auto.
Qed.

(** X20 — With a payload type whose hash tells payloads apart (as [DefaultEdge]'s
    does), a successful [add_edge(a,b,e)] on a reachable graph always leaves
    the record [{a,b,e}] under [hash(e)], whether the call inserted it or
    found it there. *)
Theorem add_edge_binds_record g a b e i :
  (∀ e1 e2 : E, hash e1 = hash e2 → e1 = e2) →
  reachable g →
  (add_edge a b e g).2 = success i →
  i = hash e ∧ get_edge (hash e) (add_edge a b e g).1 = success (mkEdge a b e).
Proof.
  intros Hinj [_ Hkey]%reachable_keys_hashed Hok.
  destruct (add_edge_success_binding a b e g i Hok)
    as (-> & _ & _ & r & Hr & Hfrom & Hto & Hedge).
  split; [done |]. unfold get_edge. rewrite Hr. f_equal.
  destruct r as [f t p]; simpl in *. subst f t. f_equal.
  destruct (edge_index g !! hash e) as [r0|] eqn:Hr0; simpl in Hedge; [|done].
  subst p. apply Hinj. by apply Hkey.
Qed.
End coverage.

(** ** Further properties of [cgrapht/models.hpp] *)
Section result_coverage.
Import Models.
Context {S E : Type}.

(** X21 — [operator==] of [Result], for payload types whose own [operator==] holds
    exactly between equal values: two results compare equal exactly when they
    are the same variant with the same payload. *)
Theorem Result_equal_spec
    `{!EqualityComparable S, !EqualityComparable E,
      !LawfulEquality S, !LawfulEquality E} (r other : Result S E) :
  Result_equal r other = true ↔ r = other.
Proof.
  destruct r as [v b], other as [w b']. unfold Result_equal. simpl.
  rewrite andb_true_iff, eqb_true_iff. split.
  - intros [-> Hv]. f_equal.
    destruct v, w; simpl in Hv; try done; f_equal; by apply equal_spec.
  - intros [= -> ->]. split; [done |].
    destruct w; simpl; try done; by apply equal_spec.
Qed.

(** X22 — The read-only accessors follow [is_ok()]: on a result made by [success]
    or [error], the accessor of the variant held returns the payload and the
    other one throws [std::runtime_error]. *)
Theorem accessors_follow_is_ok (r : Result S E) :
  constructed r →
  if is_ok r
  then ∃ s, r = success s ∧ get_ok r = Returned s
            ∧ get_error r
              = Thrown (runtime_error "Cannot get error value from success result")
  else ∃ e, r = error e ∧ get_error r = Returned e
            ∧ get_ok r
              = Thrown (runtime_error "Cannot get ok value from error result").
Proof. intros [s|e]; simpl; eauto. Qed.

(** X23 — After a consuming access the source still holds the same variant, with
    the payload in its moved-from state: [get_ok()] on a consumed success
    result (resp. [get_error()] on a consumed error result) returns what the
    move left behind. *)
Theorem consume_leaves_moved_from `{!Movable S, !Movable E} (s : S) (e : E) :
  (∃ r', consume_ok (success s : Result S E) = Returned (s, r')
         ∧ is_ok r' = true ∧ get_ok r' = Returned (moved_from s))
  ∧ (∃ r', consume_error (error e : Result S E) = Returned (e, r')
           ∧ is_ok r' = false ∧ get_error r' = Returned (moved_from e)).
Proof. split; eexists; repeat split. Qed.
End result_coverage.

(** ** Agreement of the two copies of [graph.hpp] on the one-sided queries *)
Section legacy_queries.
Import Graph.
Context {V E : Type} `{!Hashable V, !Hashable E}.

(** X25 — [get_children] and [get_parents] of [headers/graph.hpp] answer as those of
    [cgrapht/graph.hpp] do, on every graph state and for every id: the same
    exception, or the same result up to the member [is_initialized]. *)
Theorem legacy_children_parents_agree (i : N) (g : DirectedGraph V E) :
  (r ←! Legacy.get_children i g ;; Returned (Legacy.forget r)) = get_children i g
  ∧ (r ←! Legacy.get_parents i g ;; Returned (Legacy.forget r)) = get_parents i g.
Proof.
  unfold Legacy.get_children, Legacy.get_parents, get_children, get_parents.
  destruct (adjacency_list g !! i) as [es|]; [|done].
  split; by destruct (collect _ _).
Qed.
End legacy_queries.

(** ** Payload types: equality and hashing *)
Section payload_facts.
Import Payloads.

Global Instance N_lawful : LawfulEquality N.
Proof. intros x y. apply N.eqb_eq. Qed.

Global Instance ErrorType_lawful : LawfulEquality ErrorType.
Proof. intros x y. apply bool_decide_eq_true. Qed.

Global Instance DefaultEdge_lawful : LawfulEquality DefaultEdge.
Proof.
  intros [x] [y]. unfold equal, DefaultEdge_equal. simpl. rewrite N.eqb_eq.
  split; [by intros -> | by intros [= ->]].
Qed.

(** [std::hash<DefaultEdge>] returns the id [operator==] compares, so equal
    hashes mean equal payloads. *)
Lemma DefaultEdge_hash_inj (e1 e2 : DefaultEdge) : hash e1 = hash e2 → e1 = e2.
Proof. destruct e1, e2. unfold hash, DefaultEdge_hash. simpl. by intros ->. Qed.
End payload_facts.

(** ** Searching the edge view *)
Section edge_search.
Import Models Graph.
Context {V E : Type} `{!Hashable V, !Hashable E}.
Context `{!EqualityComparable E, !LawfulEquality E}.

Lemma Edge_equal_eq (r other : Edge E) : Edge_equal r other = true ↔ r = other.
Proof.
  destruct r as [f t p], other as [f' t' p']. unfold Edge_equal. simpl.
  rewrite !andb_true_iff, !N.eqb_eq, equal_spec. split.
  - by intros [[-> ->] ->].
  - by intros [= -> -> ->].
Qed.

(** X26 — Searching [get_edges()] for a record with [std::ranges::find], as the
    tests do, succeeds exactly when [get_edge] fetches that record under the
    hash of its payload, on every reachable graph. *)
Theorem found_edge_iff_get_edge (g : DirectedGraph V E) (r : Edge E) :
  reachable g →
  found Edge_equal (get_edges g) r = true
  ↔ get_edge (hash (edge r)) g = success r.
Proof.
  intros [_ Hkey]%reachable_keys_hashed. unfold found, get_edges, get_edge.
  rewrite existsb_exists. split.
  - intros (x & Hx%list_elem_of_In & ->%Edge_equal_eq).
    apply list_elem_of_fmap in Hx as ([k r'] & -> & Hin%elem_of_map_to_list).
    simpl. by rewrite (Hkey k r' Hin), Hin.
  - destruct (edge_index g !! hash (edge r)) as [r'|] eqn:Hr; [|done].
    intros [= ->]. exists r. split; [|by apply Edge_equal_eq].
    apply list_elem_of_In, list_elem_of_fmap. exists (hash (edge r), r).
    split; [done |]. by apply elem_of_map_to_list.
Qed.
End edge_search.

(** ** The further properties at the graphs of the test suite *)
Section coverage_instances.
Import Models Graph Payloads Scenarios.
Local Open Scope N_scope.

Lemma unconnected_reachable : reachable unconnected_graph.
Proof. apply (reachable_from_empty unconnected_calls). Qed.

Lemma three_vertices_reachable : reachable three_vertices.
Proof. apply reachable_from_empty. Qed.

Lemma stored_under_own_hash_witness :
  reachable unconnected_graph
  ∧ (∀ k v, vertex_index unconnected_graph !! k = Some v → hash v = k)
  ∧ (∀ k r, edge_index unconnected_graph !! k = Some r → hash (edge r) = k).
Proof.
  exact (conj unconnected_reachable
           (stored_under_own_hash unconnected_graph unconnected_reachable)).
Defined.

Lemma failed_call_keeps_state_witness :
  let c : @call Vertex DefaultEdge := AddEdge 2 3 (mkDefaultEdge 42) in
  is_ok (exec c unconnected_graph).2 = false
  ∧ (exec c unconnected_graph).1 = unconnected_graph.
Proof.
  intros c.
  assert (is_ok (exec c unconnected_graph).2 = false) as Hfail
    by (vm_compute; reflexivity).
  exact (conj Hfail (failed_call_keeps_state c unconnected_graph Hfail)).
Defined.

Lemma delete_vertex_twice_witness :
  let g := unconnected_graph in
  is_ok (delete_vertex 6 g).2 = true
  ∧ delete_vertex 6 (delete_vertex 6 g).1
    = ((delete_vertex 6 g).1, error ABSENT_VERTX).
Proof.
  intros g.
  assert (is_ok (delete_vertex 6 g).2 = true) as Hok by (vm_compute; reflexivity).
  exact (conj Hok (delete_vertex_twice 6 g Hok)).
Defined.

Lemma delete_edge_twice_witness :
  let g := unconnected_graph in
  is_ok (delete_edge 42 g).2 = true
  ∧ delete_edge 42 (delete_edge 42 g).1
    = ((delete_edge 42 g).1, error ABSENT_EDGE).
Proof.
  intros g.
  assert (is_ok (delete_edge 42 g).2 = true) as Hok by (vm_compute; reflexivity).
  exact (conj Hok (delete_edge_twice 42 g Hok)).
Defined.

Lemma queries_never_throw_witness :
  let g := unconnected_graph in
  reachable g
  ∧ returns (get_children 2 g) ∧ returns (get_parents 2 g)
  ∧ returns (get_neighbours 2 g).
Proof.
  exact (conj unconnected_reachable
           (queries_never_throw unconnected_graph 2 unconnected_reachable)).
Defined.

Lemma adjacency_queries_match_edge_table_witness :
  let g := unconnected_graph in
  reachable g
  ∧ get_children 2 g = Returned (success {[ 1 ]})
  ∧ (∀ y, y ∈ ({[ 1 ]} : gset N)
          ↔ ∃ k r, edge_index g !! k = Some r ∧ from_id r = 2 ∧ to_id r = y).
Proof.
  intros g.
  assert (get_children 2 g = Returned (success {[ 1 ]})) as Hc
    by (vm_compute; reflexivity).
  destruct (adjacency_queries_match_edge_table g 2 unconnected_reachable)
    as (Hchildren & _).
  exact (conj unconnected_reachable (conj Hc (Hchildren _ Hc))).
Defined.

Lemma children_parents_mirror_witness :
  let g := unconnected_graph in
  reachable g
  ∧ get_children 2 g = Returned (success {[ 1 ]})
  ∧ get_parents 1 g = Returned (success {[ 2; 3 ]})
  ∧ (1 ∈ ({[ 1 ]} : gset N) ↔ 2 ∈ ({[ 2; 3 ]} : gset N)).
Proof.
  intros g.
  assert (get_children 2 g = Returned (success {[ 1 ]})) as Hc
    by (vm_compute; reflexivity).
  assert (get_parents 1 g = Returned (success {[ 2; 3 ]})) as Hp
    by (vm_compute; reflexivity).
  exact (conj unconnected_reachable (conj Hc (conj Hp
           (children_parents_mirror g 2 1 _ _ unconnected_reachable Hc Hp)))).
Defined.

Lemma neighbours_symmetric_witness :
  let g := unconnected_graph in
  reachable g
  ∧ get_neighbours 2 g = Returned (success {[ 1; 4; 5 ]})
  ∧ get_neighbours 1 g = Returned (success {[ 2; 3 ]})
  ∧ (1 ∈ ({[ 1; 4; 5 ]} : gset N) ↔ 2 ∈ ({[ 2; 3 ]} : gset N)).
Proof.
  intros g.
  assert (get_neighbours 2 g = Returned (success {[ 1; 4; 5 ]})) as Ha
    by (vm_compute; reflexivity).
  assert (get_neighbours 1 g = Returned (success {[ 2; 3 ]})) as Hb
    by (vm_compute; reflexivity).
  exact (conj unconnected_reachable (conj Ha (conj Hb
           (neighbours_symmetric g 2 1 _ _ unconnected_reachable Ha Hb)))).
Defined.

Lemma delete_vertex_succeeds_iff_witness :
  let g := unconnected_graph in
  reachable g
  ∧ (is_ok (delete_vertex 6 g).2 = true
     ↔ is_Some (vertex_index g !! 6)
       ∧ ∀ k r, edge_index g !! k = Some r → from_id r ≠ 6 ∧ to_id r ≠ 6).
Proof.
  exact (conj unconnected_reachable
           (delete_vertex_succeeds_iff unconnected_graph 6 unconnected_reachable)).
Defined.

Lemma add_edge_delete_edge_cancel_witness :
  let g := three_vertices in
  let e := mkDefaultEdge 123 in
  reachable g ∧ is_Some (vertex_index g !! 1) ∧ is_Some (vertex_index g !! 2)
  ∧ edge_index g !! hash e = None
  ∧ delete_edge (hash e) (add_edge 1 2 e g).1 = (g, success (hash e)).
Proof.
  intros g e.
  assert (is_Some (vertex_index g !! 1)) as Hone by (vm_compute; eexists; reflexivity).
  assert (is_Some (vertex_index g !! 2)) as Htwo by (vm_compute; eexists; reflexivity).
  assert (edge_index g !! hash e = None) as Hfree by (vm_compute; reflexivity).
  exact (conj three_vertices_reachable (conj Hone (conj Htwo (conj Hfree
           (add_edge_delete_edge_cancel g 1 2 e three_vertices_reachable
              Hone Htwo Hfree))))).
Defined.

Lemma delete_edge_add_edge_cancel_witness :
  let g := unconnected_graph in
  let e := mkDefaultEdge 42 in
  reachable g ∧ edge_index g !! hash e = Some (mkEdge 4 2 e)
  ∧ add_edge 4 2 e (delete_edge (hash e) g).1 = (g, success (hash e)).
Proof.
  intros g e.
  assert (edge_index g !! hash e = Some (mkEdge 4 2 e)) as Hr
    by (vm_compute; reflexivity).
  exact (conj unconnected_reachable (conj Hr
           (delete_edge_add_edge_cancel g 4 2 e unconnected_reachable Hr))).
Defined.

Lemma add_vertex_delete_vertex_cancel_witness :
  let g := three_vertices in
  let v := mkVertex 9 "Nine" in
  reachable g ∧ vertex_index g !! hash v = None
  ∧ delete_vertex (hash v) (add_vertex v g).1 = (g, success (hash v)).
Proof.
  intros g v.
  assert (vertex_index g !! hash v = None) as Hfree by (vm_compute; reflexivity).
  exact (conj three_vertices_reachable (conj Hfree
           (add_vertex_delete_vertex_cancel g v three_vertices_reachable Hfree))).
Defined.

Lemma get_vertices_fetchable_witness :
  let g := three_vertices in
  let v := mkVertex 2 "Two" in
  reachable g ∧ (v ∈ get_vertices g ↔ get_vertex (hash v) g = success v).
Proof.
  exact (conj three_vertices_reachable
           (get_vertices_fetchable three_vertices (mkVertex 2 "Two")
              three_vertices_reachable)).
Defined.

Lemma get_edges_fetchable_witness :
  let g := unconnected_graph in
  let r := mkEdge 4 2 (mkDefaultEdge 42) in
  reachable g ∧ (r ∈ get_edges g ↔ get_edge (hash (edge r)) g = success r).
Proof.
  exact (conj unconnected_reachable
           (get_edges_fetchable unconnected_graph (mkEdge 4 2 (mkDefaultEdge 42))
              unconnected_reachable)).
Defined.

Lemma adjacency_index_consistent_witness :
  let g := unconnected_graph in
  reachable g
  ∧ (∀ a, is_Some (vertex_index g !! a) ↔ is_Some (adjacency_list g !! a)).
Proof.
  exact (conj unconnected_reachable
           (proj1 (adjacency_index_consistent unconnected_graph
                     unconnected_reachable))).
Defined.

Lemma add_edge_adds_one_child_witness :
  let g := three_vertices in
  let e := mkDefaultEdge 123 in
  reachable g ∧ is_Some (vertex_index g !! 1) ∧ is_Some (vertex_index g !! 2)
  ∧ edge_index g !! hash e = None
  ∧ get_children 1 g = Returned (success ∅)
  ∧ get_children 1 (add_edge 1 2 e g).1
    = Returned (success (if decide (1 = 1) then {[ 2 ]} ∪ ∅ else ∅)).
Proof.
  intros g e.
  assert (is_Some (vertex_index g !! 1)) as Hone by (vm_compute; eexists; reflexivity).
  assert (is_Some (vertex_index g !! 2)) as Htwo by (vm_compute; eexists; reflexivity).
  assert (edge_index g !! hash e = None) as Hfree by (vm_compute; reflexivity).
  assert (get_children 1 g = Returned (success ∅)) as Hc by (vm_compute; reflexivity).
  destruct (add_edge_adds_one_child g 1 2 e 1 three_vertices_reachable
              Hone Htwo Hfree) as (Hchildren & _).
  exact (conj three_vertices_reachable (conj Hone (conj Htwo (conj Hfree
           (conj Hc (Hchildren ∅ Hc)))))).
Defined.

Lemma delete_edge_prunes_witness :
  let g := unconnected_graph in
  let r := mkEdge 4 2 (mkDefaultEdge 42) in
  reachable g ∧ edge_index g !! 42 = Some r
  ∧ get_edge 42 (delete_edge 42 g).1 = error ABSENT_EDGE
  ∧ vertex_index (delete_edge 42 g).1 = vertex_index g.
Proof.
  intros g r.
  assert (edge_index g !! 42 = Some r) as Hr by (vm_compute; reflexivity).
  destruct (delete_edge_prunes g 42 r unconnected_reachable Hr)
    as (Hgone & _ & Hvertices & _).
  exact (conj unconnected_reachable (conj Hr (conj Hgone Hvertices))).
Defined.

Lemma add_edge_binds_record_witness :
  let g := unconnected_graph in
  let e := mkDefaultEdge 42 in
  (∀ e1 e2 : DefaultEdge, hash e1 = hash e2 → e1 = e2)
  ∧ reachable g ∧ (add_edge 4 2 e g).2 = success 42
  ∧ get_edge (hash e) (add_edge 4 2 e g).1 = success (mkEdge 4 2 e).
Proof.
  intros g e.
  assert ((add_edge 4 2 e g).2 = success 42) as Hok by (vm_compute; reflexivity).
  destruct (add_edge_binds_record g 4 2 e 42 DefaultEdge_hash_inj
              unconnected_reachable Hok) as (_ & Hget).
  exact (conj DefaultEdge_hash_inj (conj unconnected_reachable (conj Hok Hget))).
Defined.

Lemma get_neighbours_union_witness :
  let g := unconnected_graph in
  reachable g ∧ is_Some (vertex_index g !! 2)
  ∧ ∃ c p, get_children 2 g = Returned (success c)
           ∧ get_parents 2 g = Returned (success p)
           ∧ get_neighbours 2 g = Returned (success (c ∪ p))
           ∧ ∀ k r, k ∈ outgoing_of g 2 → edge_index g !! k = Some r → to_id r ∈ c ∪ p.
Proof.
  intros g.
  assert (is_Some (vertex_index g !! 2)) as Htwo by (vm_compute; eexists; reflexivity).
  exact (conj unconnected_reachable (conj Htwo
           (get_neighbours_union g 2 unconnected_reachable Htwo))).
Defined.

Lemma Result_equal_spec_witness :
  LawfulEquality N ∧ LawfulEquality ErrorType
  ∧ (Result_equal (success 7 : Result N ErrorType) (success 7) = true
     ↔ (success 7 : Result N ErrorType) = success 7).
Proof.
  exact (conj N_lawful (conj ErrorType_lawful
           (Result_equal_spec (S:=N) (E:=ErrorType) (success 7) (success 7)))).
Defined.

Lemma accessors_follow_is_ok_witness :
  let r : Result N ErrorType := error ABSENT_EDGE in
  constructed r
  ∧ ∃ e, r = error e ∧ get_error r = Returned e
         ∧ get_ok r = Thrown (runtime_error "Cannot get ok value from error result").
Proof.
  exact (conj (constructed_error ABSENT_EDGE)
           (accessors_follow_is_ok (error ABSENT_EDGE : Result N ErrorType)
              (constructed_error ABSENT_EDGE))).
Defined.
Lemma found_edge_iff_get_edge_witness :
  let g := unconnected_graph in
  let r := mkEdge 4 2 (mkDefaultEdge 42) in
  LawfulEquality DefaultEdge ∧ reachable g
  ∧ (found Edge_equal (get_edges g) r = true
     ↔ get_edge (hash (edge r)) g = success r).
Proof.
  exact (conj DefaultEdge_lawful (conj unconnected_reachable
           (found_edge_iff_get_edge unconnected_graph
              (mkEdge 4 2 (mkDefaultEdge 42)) unconnected_reachable))).
Defined.
End coverage_instances.
